(** * Baby-names pipeline: ingestion (CsvImporterService) and egress
    (HubSpotSyncService)

    A shallow embedding of [src/services/CsvImporterService.ts] and
    [src/services/HubSpotSyncService.ts].

    - JavaScript numbers that count rows are integers ([Z]).
    - JavaScript strings are sequences of code units; the model keeps the
      code units below 256 ([ascii]), on which [trim], [toLowerCase] and the
      regular-expression class [\s] are written out.
    - The store, the CSV stream and the remote endpoint are external: they
      enter as explicit parameters (a table, a list of rows, a reply
      function), and every interaction is recorded in a trace.
    - Opening the database connection ([sequelize.authenticate()]) and
      locating the CSV file come before both loops and are taken to have
      succeeded; [logger.info] and [logger.success] lines are not traced. *)

From Stdlib Require Import ZArith List String Ascii Bool Lia Sorted.
Import ListNotations.
Local Open Scope string_scope.
Local Open Scope Z_scope.
Local Open Scope list_scope.

(** ** JavaScript string primitives *)

Module JsString.

(** [WhiteSpace] and [LineTerminator] code units below 256:
    TAB, LF, VT, FF, CR, SP and NBSP. *)
Definition is_space (c : ascii) : bool :=
  let n := nat_of_ascii c in
  ((9 <=? n) && (n <=? 13))%nat || (n =? 32)%nat || (n =? 160)%nat.

(** [String.prototype.trimStart] *)
Fixpoint trimStart (s : string) : string :=
  match s with
  | EmptyString => EmptyString
  | String c s' => if is_space c then trimStart s' else s
  end.

(** [String.prototype.trimEnd] *)
Fixpoint trimEnd (s : string) : string :=
  match s with
  | EmptyString => EmptyString
  | String c s' =>
      match trimEnd s' with
      | EmptyString => if is_space c then EmptyString else String c EmptyString
      | t => String c t
      end
  end.

(** [String.prototype.trim] *)
Definition trim (s : string) : string := trimEnd (trimStart s).

(** Lower-case mapping of one code unit: A-Z, and in the Latin-1 block
    U+00C0-U+00DE except the multiplication sign U+00D7. *)
Definition lower_char (c : ascii) : ascii :=
  let n := nat_of_ascii c in
  if ((65 <=? n) && (n <=? 90))%nat
     || (((192 <=? n) && (n <=? 222))%nat && negb (n =? 215)%nat)
  then ascii_of_nat (n + 32) else c.

(** [String.prototype.toLowerCase] *)
Fixpoint toLowerCase (s : string) : string :=
  match s with
  | EmptyString => EmptyString
  | String c s' => String (lower_char c) (toLowerCase s')
  end.

(** [s.replace(/\s+/g, r)]: every maximal run of white space becomes one
    copy of [r]; [in_run] tells that the previous code unit was white
    space. *)
Fixpoint replace_space_runs_from (in_run : bool) (r : string) (s : string) : string :=
  match s with
  | EmptyString => EmptyString
  | String c s' =>
      if is_space c
      then (if in_run then replace_space_runs_from true r s'
            else (r ++ replace_space_runs_from true r s')%string)
      else String c (replace_space_runs_from false r s')
  end.

Definition replace_space_runs (r s : string) : string :=
  replace_space_runs_from false r s.

(** [!v] for a value that is a string or [undefined]. *)
Definition falsy (v : option string) : bool :=
  match v with
  | None => true
  | Some EmptyString => true
  | Some (String _ _) => false
  end.

Definition all_space (s : string) : Prop :=
  Forall (fun c => is_space c = true) (list_ascii_of_string s).

Definition starts_with_space (s : string) : bool :=
  match s with
  | EmptyString => false
  | String c _ => is_space c
  end.

Fixpoint ends_with_space (s : string) : bool :=
  match s with
  | EmptyString => false
  | String c EmptyString => is_space c
  | String _ s' => ends_with_space s'
  end.

End JsString.

(** ** Data model *)

(** The [sex] column: [ENUM('M', 'F')]. *)
Inductive SexEnum : Type := M | F.

Definition SexEnum_text (x : SexEnum) : string :=
  match x with M => "M" | F => "F" end.

Definition SexEnum_eqb (a b : SexEnum) : bool :=
  match a, b with M, M | F, F => true | _, _ => false end.

(** What ingestion hands to [BabyName.bulkCreate]: [{ name, sex }]. *)
Record BabyNameAttrs : Type := mkAttrs { attr_name : string; attr_sex : SexEnum }.

(** A raw row of the [BabyNames] table as [findAll({raw: true})] yields it;
    [id] is the auto-increment primary key. *)
Record BabyNameRow : Type := mkRow { id : Z; name : string; sex : SexEnum }.

(** ** HubSpotSyncService.formatContactForHubSpot *)

Record ContactProperties : Type := mkProps {
  email : string;
  firstname : string;
  lastname : string;
  hs_lead_status : string;
  lifecyclestage : string
}.

Record Contact : Type := mkContact { properties : ContactProperties }.

Definition email_of (nm : string) (sx : SexEnum) : string :=
  (JsString.replace_space_runs "." (JsString.toLowerCase nm)
     ++ "." ++ JsString.toLowerCase (SexEnum_text sx) ++ "@babynamesdemo.com")%string.

Definition formatContactForHubSpot (babyName : BabyNameRow) : Contact :=
  let email := email_of (name babyName) (sex babyName) in
  {| properties :=
       {| email := email;
          firstname := name babyName;
          lastname := if SexEnum_eqb (sex babyName) M then "Male" else "Female";
          hs_lead_status := "NEW";
          lifecyclestage := "subscriber" |} |}.

(** One entry of the [inputs] array posted to
    [/crm/v3/objects/contacts/batch/upsert]. *)
Record UpsertInput : Type := mkInput {
  idProperty : string;
  input_id : string;
  input_properties : ContactProperties
}.

Definition upsert_input (contact : Contact) : UpsertInput :=
  {| idProperty := "email";
     input_id := email (properties contact);
     input_properties := properties contact |}.

(** The remote upsert key of a store row. *)
Definition upsert_key (r : BabyNameRow) : string :=
  input_id (upsert_input (formatContactForHubSpot r)).

(** ** External collaborators of the egress stage *)

(** What an axios call settles to: resolved with a status, or rejected with
    [error.response?.status] ([None] when there is no response at all). *)
Inductive HttpReply : Type :=
| Resolved (status : Z)
| Rejected (status : option Z).

(** The remote endpoint: its reply to the [k]-th request of the run. *)
Definition Remote : Type := nat -> HttpReply.

(** Errors that travel up the call stack. *)
Inductive Error : Type :=
| AppError (code : string) (statusCode : Z) (message : string)
| RequestError (status : option Z)
| StoreError (message : string)
| StreamError (message : string).

(** Options of [BabyName.findAll]. [order] is the optional ORDER BY
    clause; [raw] and [logging] do not change the rows and are left out. *)
Inductive OrderClause : Type := OrderById (ascending : bool).

Record FindOptions : Type := mkFind {
  limit : Z;
  offset : Z;
  order : option OrderClause
}.

(** The table, as the sequence in which the engine yields its rows to a
    query that carries no ORDER BY. *)
Definition Table : Type := list BabyNameRow.

Fixpoint insert_by_id (asc : bool) (r : BabyNameRow) (l : list BabyNameRow) : list BabyNameRow :=
  match l with
  | [] => [r]
  | x :: l' =>
      if (if asc then id r <=? id x else id x <=? id r)
      then r :: l else x :: insert_by_id asc r l'
  end.

Definition apply_order (o : option OrderClause) (t : Table) : list BabyNameRow :=
  match o with
  | None => t
  | Some (OrderById asc) => fold_right (insert_by_id asc) [] t
  end.

(** [SELECT * FROM BabyNames [ORDER BY id] LIMIT limit OFFSET offset] *)
Definition findAll (t : Table) (o : FindOptions) : list BabyNameRow :=
  firstn (Z.to_nat (limit o)) (skipn (Z.to_nat (offset o)) (apply_order (order o) t)).

(** ** Traces and the effect monad *)

Inductive Event : Type :=
| EvFetch (opts : FindOptions) (rows : list BabyNameRow)
| EvPost (inputs : list UpsertInput) (reply : HttpReply)
| EvWait (ms : Z)
| EvHandleError (e : Error)
| EvClose.

Record World : Type := mkWorld {
  requests : nat;          (* requests sent to the remote so far *)
  trace : list Event       (* oldest event first *)
}.

Definition initial_world : World := {| requests := 0; trace := [] |}.

(** How a computation ends: it returns, it throws, or it is still running
    when the bound on its iterations ([fuel]) is used up. *)
Inductive Outcome (A : Type) : Type :=
| Done (a : A)
| Thrown (e : Error)
| Diverged.
Arguments Done {A} a.
Arguments Thrown {A} e.
Arguments Diverged {A}.

Definition Eff (A : Type) : Type := World -> Outcome A * World.

Definition ret {A} (a : A) : Eff A := fun w => (Done a, w).

Definition bind {A B} (m : Eff A) (k : A -> Eff B) : Eff B :=
  fun w =>
    match m w with
    | (Done a, w') => k a w'
    | (Thrown e, w') => (Thrown e, w')
    | (Diverged, w') => (Diverged, w')
    end.

Definition throw {A} (e : Error) : Eff A := fun w => (Thrown e, w).

Definition diverge {A} : Eff A := fun w => (Diverged, w).

Definition emit (e : Event) : Eff unit :=
  fun w => (Done tt, {| requests := requests w; trace := trace w ++ [e] |}).

Declare Scope egress_scope.
Delimit Scope egress_scope with egress.
Notation "x <- m ;; k" := (bind m (fun x => k))
  (at level 100, m at next level, right associativity) : egress_scope.
Notation "m ;; k" := (bind m (fun _ => k))
  (at level 100, right associativity) : egress_scope.
Local Open Scope egress_scope.

Definition Z_length {A} (l : list A) : Z := Z.of_nat (List.length l).

(** ** HubSpotSyncService *)

Section Egress.

Variable table : Table.
Variable remote : Remote.

(** [pageSize] is the constant 5000 and [batchSize] the field 100 in the
    source; the loop is written over both so that statements can range
    over them. [maxContactsToSync] is
    [parseInt(process.env.HUBSPOT_SYNC_LIMIT || '900')], an integer. *)
Variable pageSize : Z.
Variable batchSize : Z.
Variable maxContactsToSync : Z.

(** [await this.hubspotClient.post(url, { inputs })] *)
Definition post (inputs : list UpsertInput) : Eff HttpReply :=
  fun w =>
    let r := remote (requests w) in
    (Done r, {| requests := S (requests w);
                trace := trace w ++ [EvPost inputs r] |}).

(** [await BabyName.findAll({ limit, offset, raw: true, logging: false })] *)
Definition fetch (fetchLimit off : Z) : Eff (list BabyNameRow) :=
  let opts := {| limit := fetchLimit; offset := off; order := None |} in
  let rows := findAll table opts in
  (emit (EvFetch opts rows) ;; ret rows).

(** [sendBatchToHubSpot(batch)]; the source retries a throttled batch by
    calling itself without bound, [fuel] counts the attempts allowed
    here. *)
Fixpoint sendBatchToHubSpot (fuel : nat) (batch : list Contact) : Eff unit :=
  match fuel with
  | O => diverge
  | S fuel' =>
      r <- post (map upsert_input batch) ;;
      match r with
      | Resolved _ => ret tt
      | Rejected status =>
          match status with
          | Some 401 =>
              throw (AppError "HUBSPOT_AUTH_ERROR" 401 "Invalid HubSpot API key")
          | Some 429 =>
              (emit (EvWait 1000) ;;
               sendBatchToHubSpot fuel' batch)
          | Some 400 => throw (RequestError status)
          | _ => throw (RequestError status)
          end
      end
  end.

(** [for (const record of records) { ... }] over the loop variables
    [totalSynced] and [currentBatch]. *)
Fixpoint add_records (fuel : nat) (records : list BabyNameRow)
         (totalSynced : Z) (currentBatch : list Contact)
  : Eff (Z * list Contact) :=
  match records with
  | [] => ret (totalSynced, currentBatch)
  | record :: rest =>
      if totalSynced >=? maxContactsToSync
      then ret (totalSynced, currentBatch)
      else
        let formattedContact := formatContactForHubSpot record in
        let currentBatch := currentBatch ++ [formattedContact] in
        if Z_length currentBatch >=? batchSize
        then (sendBatchToHubSpot fuel currentBatch ;;
              add_records fuel rest (totalSynced + Z_length currentBatch) [])
        else add_records fuel rest totalSynced currentBatch
  end.

(** [if (currentBatch.length > 0) { send; totalSynced += length; }] *)
Definition flush_remaining (fuel : nat) (totalSynced : Z)
           (currentBatch : list Contact) : Eff Z :=
  if Z_length currentBatch >? 0
  then (sendBatchToHubSpot fuel currentBatch ;;
        ret (totalSynced + Z_length currentBatch))
  else ret totalSynced.

(** [while (totalSynced < maxContactsToSync) { ... }]; [fuel0] bounds the
    retries of one send, [fuel] the number of pages. *)
Fixpoint sync_loop (fuel0 fuel : nat) (totalSynced : Z)
         (currentBatch : list Contact) (off : Z) : Eff Z :=
  match fuel with
  | O => diverge
  | S fuel' =>
      if totalSynced <? maxContactsToSync
      then
        let remainingToSync := maxContactsToSync - totalSynced in
        let fetchLimit := Z.min pageSize remainingToSync in
        records <- fetch fetchLimit off ;;
        if Z_length records =? 0
        then flush_remaining fuel0 totalSynced currentBatch
        else
          st <- add_records fuel0 records totalSynced currentBatch ;;
          let '(totalSynced, currentBatch) := st in
          if totalSynced >=? maxContactsToSync
          then flush_remaining fuel0 totalSynced currentBatch
          else sync_loop fuel0 fuel' totalSynced currentBatch (off + pageSize)
      else ret totalSynced
  end.

(** [try { ... } catch (error) { await handleError(...); throw error }
    finally { await sequelize.close() }] *)
Definition sync_with (fuel : nat) : Eff Z :=
  fun w =>
    match sync_loop fuel fuel 0 [] 0 w with
    | (Done n, w') => (emit EvClose ;; ret n) w'
    | (Thrown e, w') => (emit (EvHandleError e) ;; emit EvClose ;; throw e) w'
    | (Diverged, w') => (Diverged, w')
    end.

End Egress.

(** [sync()] with the source's constants. *)
Definition sync (table : Table) (remote : Remote) (maxContactsToSync : Z)
           (fuel : nat) : Outcome Z * World :=
  sync_with table remote 5000 100 maxContactsToSync fuel initial_world.

(** *** Reading a trace *)

Definition posts (tr : list Event) : list (list UpsertInput) :=
  flat_map (fun e => match e with EvPost i _ => [i] | _ => [] end) tr.

Definition delivered (tr : list Event) : list (list UpsertInput) :=
  flat_map (fun e => match e with EvPost i (Resolved _) => [i] | _ => [] end) tr.

Definition fetches (tr : list Event) : list (FindOptions * list BabyNameRow) :=
  flat_map (fun e => match e with EvFetch o rows => [(o, rows)] | _ => [] end) tr.

Definition total_delivered (tr : list Event) : Z :=
  fold_right (fun b acc => Z_length b + acc) 0 (delivered tr).

(** A remote that accepts every request. *)
Definition always_ok : Remote := fun _ => Resolved 200.

(** A table of [n] rows with ids [first], [first + 1], ... *)
Fixpoint rows_from (first : Z) (n : nat) : Table :=
  match n with
  | O => []
  | S n' => {| id := first; name := "Ann"; sex := F |} :: rows_from (first + 1) n'
  end.

(** ** CsvImporterService *)

(** A row as csv-parser emits it: the [Name] and [Sex] columns, each a
    string or [undefined]. *)
Record CsvRow : Type := mkCsvRow { Name : option string; Sex : option string }.

(** How [BabyName.bulkCreate(batch, { ignoreDuplicates: true })] settles. *)
Inductive WriteResult : Type :=
| Created (created : list BabyNameAttrs)
| WriteFailed (err : Error).

(** The store's write side: its answer to the [k]-th bulk insert. *)
Definition Sink : Type := nat -> list BabyNameAttrs -> WriteResult.

(** How the row stream finishes: ['end'] or ['error']. *)
Inductive StreamFinish : Type :=
| StreamEnds
| StreamFails (err : Error).

Inductive ImportEvent : Type :=
| IvSkipRow (rowCount : Z)
| IvBulkCreate (batch : list BabyNameAttrs) (result : WriteResult)
| IvBatchInsertError (rowCount : Z) (err : Error)
| IvFinalBatchError (err : Error)
| IvStreamError (err : Error)
| IvHandleError (err : Error)
| IvClose.

Record ImportState : Type := mkImport {
  batch : list BabyNameAttrs;
  totalInserted : Z;
  rowCount : Z;
  writes : nat;                 (* bulk inserts issued so far *)
  import_log : list ImportEvent (* oldest event first *)
}.

Definition import_start : ImportState :=
  {| batch := []; totalInserted := 0; rowCount := 0; writes := 0;
     import_log := [] |}.

(** The promise of [import()]: resolved with [totalInserted] or rejected. *)
Inductive ImportResult : Type :=
| ImportResolved (total : Z)
| ImportRejected (err : Error).

(** The object pushed for a row that passed validation. *)
Definition record_of (nameField sexField : string) : BabyNameAttrs :=
  {| attr_name := JsString.trim nameField;
     attr_sex := if String.eqb (JsString.trim sexField) "M" then M else F |}.

Section Ingestion.

Variable sink : Sink.
Variable batchSize : Z.

(** [stream.on('data', (row) => { ... })]; the stream is paused while the
    bulk insert is in flight, so the handler and its continuation run as
    one step. *)
Definition on_data (st : ImportState) (row : CsvRow) : ImportState :=
  let rowCount := rowCount st + 1 in
  if JsString.falsy (Name row) || JsString.falsy (Sex row)
  then {| batch := batch st; totalInserted := totalInserted st;
          rowCount := rowCount; writes := writes st;
          import_log := import_log st ++ [IvSkipRow rowCount] |}
  else
    match Name row, Sex row with
    | Some nameField, Some sexField =>
        let batch := batch st ++ [record_of nameField sexField] in
        if Z_length batch >=? batchSize
        then
          let batchToInsert := batch in
          match sink (writes st) batchToInsert with
          | Created created =>
              {| batch := [];
                 totalInserted := totalInserted st + Z_length created;
                 rowCount := rowCount; writes := S (writes st);
                 import_log := import_log st
                   ++ [IvBulkCreate batchToInsert (Created created)] |}
          | WriteFailed err =>
              {| batch := [];
                 totalInserted := totalInserted st;
                 rowCount := rowCount; writes := S (writes st);
                 import_log := import_log st
                   ++ [IvBulkCreate batchToInsert (WriteFailed err);
                       IvBatchInsertError rowCount err] |}
          end
        else {| batch := batch; totalInserted := totalInserted st;
                rowCount := rowCount; writes := writes st;
                import_log := import_log st |}
    | _, _ => st
    end.

(** [stream.on('end', async () => { ... })] *)
Definition on_end (st : ImportState) : ImportResult * ImportState :=
  if Z_length (batch st) >? 0
  then
    match sink (writes st) (batch st) with
    | Created remaining =>
        let total := totalInserted st + Z_length remaining in
        (ImportResolved total,
         {| batch := batch st; totalInserted := total;
            rowCount := rowCount st; writes := S (writes st);
            import_log := import_log st
              ++ [IvBulkCreate (batch st) (Created remaining)] |})
    | WriteFailed err =>
        (ImportRejected err,
         {| batch := batch st; totalInserted := totalInserted st;
            rowCount := rowCount st; writes := S (writes st);
            import_log := import_log st
              ++ [IvBulkCreate (batch st) (WriteFailed err);
                  IvFinalBatchError err] |})
    end
  else (ImportResolved (totalInserted st), st).

(** [stream.on('error', (err) => { ... })] *)
Definition on_error (err : Error) (st : ImportState) : ImportResult * ImportState :=
  (ImportRejected err,
   {| batch := batch st; totalInserted := totalInserted st;
      rowCount := rowCount st; writes := writes st;
      import_log := import_log st ++ [IvStreamError err] |}).

Definition read_stream (rows : list CsvRow) (finish : StreamFinish)
  : ImportResult * ImportState :=
  let st := fold_left on_data rows import_start in
  match finish with
  | StreamEnds => on_end st
  | StreamFails err => on_error err st
  end.

(** [import()]: the stream promise inside
    [try { ... } catch (error) { handleError; throw } finally { close }];
    the result and the log. *)
Definition import (rows : list CsvRow) (finish : StreamFinish)
  : ImportResult * list ImportEvent :=
  match read_stream rows finish with
  | (ImportResolved n, st) => (ImportResolved n, import_log st ++ [IvClose])
  | (ImportRejected err, st) =>
      (ImportRejected err, import_log st ++ [IvHandleError err; IvClose])
  end.

End Ingestion.

(** *** Reading an import log *)

Definition write_attempts (log : list ImportEvent) : list (list BabyNameAttrs) :=
  flat_map (fun e => match e with IvBulkCreate b _ => [b] | _ => [] end) log.

Definition failed_writes (log : list ImportEvent) : list Error :=
  flat_map (fun e => match e with
                     | IvBulkCreate _ (WriteFailed err) => [err]
                     | _ => [] end) log.

Definition batch_error_logs (log : list ImportEvent) : list Error :=
  flat_map (fun e => match e with IvBatchInsertError _ err => [err] | _ => [] end) log.

Definition final_error_logs (log : list ImportEvent) : list Error :=
  flat_map (fun e => match e with IvFinalBatchError err => [err] | _ => [] end) log.

Definition skipped_rows (log : list ImportEvent) : list Z :=
  flat_map (fun e => match e with IvSkipRow n => [n] | _ => [] end) log.

Definition records_produced (log : list ImportEvent) : list BabyNameAttrs :=
  List.concat (write_attempts log).

(** A store that rejects every batch. *)
Definition rejecting_sink : Sink := fun _ _ => WriteFailed (StoreError "ER_LOCK_DEADLOCK").

(** ** Definitions used to state the properties *)

(** [t] is [s] with its surrounding white space removed: [s] is [t] between
    two runs of white space, and [t] neither starts nor ends with one. *)
Definition surrounding_space_removed (s t : string) : Prop :=
  exists l r,
    s = (l ++ t ++ r)%string
    /\ JsString.all_space l /\ JsString.all_space r
    /\ JsString.starts_with_space t = false
    /\ JsString.ends_with_space t = false.

(** Validation of a row: [!row.Name || !row.Sex] is false. *)
Definition passes_validation (row : CsvRow) : bool :=
  negb (JsString.falsy (Name row) || JsString.falsy (Sex row)).

(** The record a row contributes, if any. *)
Definition accepted_record (row : CsvRow) : list BabyNameAttrs :=
  match Name row, Sex row with
  | Some n, Some s => if passes_validation row then [record_of n s] else []
  | _, _ => []
  end.

(** The relation the specification states between a validated row and its
    record. *)
Definition normalized (row : CsvRow) (rec : BabyNameAttrs) : Prop :=
  exists n s,
    Name row = Some n /\ Sex row = Some s
    /\ attr_name rec = JsString.trim n
    /\ surrounding_space_removed n (attr_name rec)
    /\ (attr_sex rec = M <-> JsString.trim s = "M")
    /\ (attr_sex rec = F <-> JsString.trim s <> "M").

(** The name as it enters the upsert key. *)
Definition key_name (nm : string) : string :=
  JsString.replace_space_runs "." (JsString.toLowerCase nm).

(** The rows of the normalization scenario. *)
Definition scenario_rows : list CsvRow :=
  [ {| Name := Some "  John "; Sex := Some "M" |};
    {| Name := Some ""; Sex := Some "F" |};
    {| Name := Some "Ann"; Sex := Some "m" |} ].

(** What holds of the ['data'] handler's state between two rows. *)
Definition between_rows (batchSize : Z) (st : ImportState) : Prop :=
  failed_writes (import_log st) = batch_error_logs (import_log st)
  /\ final_error_logs (import_log st) = []
  /\ (batch st = [] \/ Z_length (batch st) < batchSize).

(** *** Reasoning about effectful code *)

(** From a world satisfying [P], [m] ends (or stops) in a world and with an
    outcome satisfying [Q]. *)
Definition hoare {A} (P : World -> Prop) (m : Eff A)
           (Q : Outcome A -> World -> Prop) : Prop :=
  forall w, P w -> Q (fst (m w)) (snd (m w)).

(** Every request sent so far carries between 1 and [bound] entries. *)
Definition posts_within (bound : Z) (w : World) : Prop :=
  Forall (fun inputs => 1 <= Z_length inputs <= bound) (posts (trace w)).

(** A request answered 401. *)
Definition unauthorized (e : Event) : bool :=
  match e with
  | EvPost _ (Rejected (Some 401)) => true
  | _ => false
  end.

Definition auth_error : Error :=
  AppError "HUBSPOT_AUTH_ERROR" 401 "Invalid HubSpot API key".

(** No request was answered 401. *)
Definition never_unauthorized (tr : list Event) : Prop :=
  Forall (fun e => unauthorized e = false) tr.

(** The last event is the only request answered 401. *)
Definition just_unauthorized (tr : list Event) : Prop :=
  exists pre inputs,
    tr = pre ++ [EvPost inputs (Rejected (Some 401))]
    /\ never_unauthorized pre.

(** Strictly ascending integers, and rows in ascending [id] order. *)
Fixpoint ascending (l : list Z) : bool :=
  match l with
  | [] => true
  | x :: l' =>
      match l' with
      | [] => true
      | y :: _ => (x <? y) && ascending l'
      end
  end.

Definition ascending_ids (rows : list BabyNameRow) : bool :=
  ascending (map id rows).

(** What the [k]-th page fetch of a run over [table] with page size
    [pageSize] looks like. *)
Definition page_fetch (table : Table) (pageSize : Z) (k : nat)
           (f : FindOptions * list BabyNameRow) : Prop :=
  let (opts, rows) := f in
  order opts = None
  /\ offset opts = pageSize * Z.of_nat k
  /\ 1 <= limit opts <= pageSize
  /\ rows = firstn (Z.to_nat (limit opts)) (skipn (Z.to_nat (offset opts)) table).

(** [error.response?.status === code] *)
Definition status_is (status : option Z) (code : Z) : bool :=
  match status with
  | Some s => s =? code
  | None => false
  end.

(** Either no request was answered 401, or the run has just thrown the
    authentication error on the one request that was. *)
Definition stops_on_unauthorized {A} (r : Outcome A) (w : World) : Prop :=
  never_unauthorized (trace w)
  \/ (r = Thrown auth_error /\ just_unauthorized (trace w)).

(** The pages fetched so far are the expected ones. *)
Definition fetch_log_ok (table : Table) (pageSize : Z)
           (l : list (FindOptions * list BabyNameRow)) : Prop :=
  forall k f, nth_error l k = Some f -> page_fetch table pageSize k f.

(** *** Sample collaborators *)

(** A remote that throttles the first two requests. *)
Definition throttled_twice : Remote :=
  fun k => match k with
           | 0%nat | 1%nat => Rejected (Some 429)
           | _ => Resolved 200
           end.

(** A remote that rejects the credentials. *)
Definition always_unauthorized : Remote := fun _ => Rejected (Some 401).

(** A table the engine yields newest row first. *)
Definition newest_first_table : Table :=
  [ {| id := 2; name := "Bob"; sex := M |};
    {| id := 1; name := "Ann"; sex := F |} ].

Definition three_contacts : list Contact :=
  map formatContactForHubSpot (rows_from 1 3).

(** The two page fetches of a run over three rows with cap 150. *)
Definition three_rows_fetches : list Event :=
  [ EvFetch {| limit := 150; offset := 0; order := None |} (rows_from 1 3);
    EvFetch {| limit := 150; offset := 5000; order := None |} [] ].

(** *** More readings of an egress trace *)

(** A request the remote rejected with anything but 429. *)
Definition fatal_reply (e : Event) : bool :=
  match e with
  | EvPost _ (Rejected status) => negb (status_is status 429)
  | _ => false
  end.

(** What [sendBatchToHubSpot] throws for a rejection that is not a 429. *)
Definition error_for (status : option Z) : Error :=
  if status_is status 401 then auth_error else RequestError status.

(** No request so far was rejected for good. *)
Definition never_fatal (tr : list Event) : Prop :=
  Forall (fun e => fatal_reply e = false) tr.

(** Either no request was rejected for good, or the last event is the one
    that was and the run has thrown the matching error. *)
Definition stops_on_fatal {A} (r : Outcome A) (w : World) : Prop :=
  never_fatal (trace w)
  \/ exists pre inputs status,
       trace w = pre ++ [EvPost inputs (Rejected status)]
       /\ never_fatal pre
       /\ status_is status 429 = false
       /\ r = Thrown (error_for status).

(** The entry sent for a store row. *)
Definition entry_of (r : BabyNameRow) : UpsertInput :=
  upsert_input (formatContactForHubSpot r).

(** The entries the remote accepted, in the order they were sent. *)
Definition sent_entries (tr : list Event) : list UpsertInput :=
  List.concat (delivered tr).

(** The rows the store returned, in the order they were fetched. *)
Definition fetched_rows (tr : list Event) : list BabyNameRow :=
  List.concat (map snd (fetches tr)).

(** *** More readings of an import log *)

(** The 1-based positions, counted from [start], of the rows that fail
    validation. *)
Fixpoint invalid_positions (start : Z) (rows : list CsvRow) : list Z :=
  match rows with
  | [] => []
  | row :: rest =>
      (if passes_validation row then [] else [start])
        ++ invalid_positions (start + 1) rest
  end.

(** The number of instances the store reported as created. *)
Definition created_count (log : list ImportEvent) : Z :=
  fold_right
    (fun e acc => match e with
                  | IvBulkCreate _ (Created created) => Z_length created + acc
                  | _ => acc
                  end)
    0 log.

(** A store that reports one created instance per record it is given, as
    [bulkCreate] does when it succeeds. *)
Definition reports_every_record (sink : Sink) : Prop :=
  forall k b, exists created, sink k b = Created created /\ Z_length created = Z_length b.

(** A store that accepts every batch. *)
Definition accepting_sink : Sink := fun _ b => Created b.

(** ** Locating the input file *)

Module JsSearch.

(** [String.prototype.startsWith] *)
Fixpoint startsWith (s p : string) {struct p} : bool :=
  match p, s with
  | EmptyString, _ => true
  | String c p', String d s' => Ascii.eqb c d && startsWith s' p'
  | String _ _, EmptyString => false
  end.

(** [String.prototype.includes] *)
Fixpoint includes (s sub : string) : bool :=
  startsWith s sub
  || match s with
     | EmptyString => false
     | String _ s' => includes s' sub
     end.

(** [String.prototype.endsWith] *)
Fixpoint endsWith (s suf : string) : bool :=
  String.eqb s suf
  || match s with
     | EmptyString => false
     | String _ s' => endsWith s' suf
     end.

End JsSearch.

(** An entry of the archive, as [zip.getEntries()] lists it. *)
Record ZipEntry : Type := mkZipEntry { entryName : string; isDirectory : bool }.

Section FileLookup.

(** [path.join], and the resolved download directory. *)
Variable path_join : string -> string -> string.
Variable downloadDir : string.

(** [CsvImporterService.findCsvFile]; [files] is what
    [fs.readdirSync(this.downloadDir)] returned. A name that ends with
    [.zip] or [.csv] is not empty, so [if (zipFile)] tests that [find]
    found one. *)
Definition findCsvFile (files : list string) : Error + string :=
  match find (fun f => JsSearch.endsWith f ".zip") files with
  | Some zipFile => inr (path_join downloadDir zipFile)
  | None =>
      match find (fun f => JsSearch.endsWith f ".csv") files with
      | Some csvFile => inr (path_join downloadDir csvFile)
      | None =>
          inl (AppError "FILE_NOT_FOUND" 404
                        ("No CSV or ZIP file found in " ++ downloadDir))
      end
  end.

(** [KaggleDownloaderService.getExistingFile] *)
Definition getExistingFile (files : list string) : option string :=
  match find (fun f => JsSearch.endsWith f ".csv" || JsSearch.endsWith f ".zip")
             files with
  | Some csvFile => Some (path_join downloadDir csvFile)
  | None => None
  end.

(** [CsvImporterService.extractZip]; [entries] is what [zip.getEntries()]
    returned. The result is the entry handed to [zip.extractEntryTo] and
    the path returned. *)
Definition extractZip (entries : list ZipEntry) : Error + (ZipEntry * string) :=
  match find (fun e => JsSearch.includes (entryName e) ".csv"
                       && negb (isDirectory e)) entries with
  | Some csvEntry => inr (csvEntry, path_join downloadDir (entryName csvEntry))
  | None => inl (AppError "CSV_NOT_IN_ZIP" 400 "No CSV file found inside ZIP")
  end.

End FileLookup.

(** ** Configuration *)

(** [process.env] *)
Definition Env : Type := string -> option string.

Definition requiredEnvVars : list string :=
  [ "DB_HOST"; "DB_NAME"; "DB_USER"; "DB_PASSWORD";
    "KAGGLE_EMAIL"; "KAGGLE_PASSWORD"; "HUBSPOT_ACCESS_TOKEN" ].

(** The fields of [envConfig] that are plain strings. *)
Record EnvConfig : Type := mkEnvConfig {
  db_host : option string;
  db_name : option string;
  db_user : option string;
  db_password : option string;
  kaggle_email : option string;
  kaggle_password : option string;
  hubspot_accessToken : option string;
  hubspot_apiBaseUrl : string;
  app_nodeEnv : string;
  app_downloadDir : string
}.

(** [process.env.X || fallback] *)
Definition or_default (v : option string) (fallback : string) : string :=
  match v with
  | Some (String c s) => String c s
  | _ => fallback
  end.

(** Loading [config/EnvConfig]: the object is built, then
    [requiredEnvVars.forEach] throws at the first variable that is unset
    or empty. The result is the message of the error thrown, or the
    configuration. *)
Definition load_EnvConfig (env : Env) : string + EnvConfig :=
  let envConfig :=
    {| db_host := env "DB_HOST";
       db_name := env "DB_NAME";
       db_user := env "DB_USER";
       db_password := env "DB_PASSWORD";
       kaggle_email := env "KAGGLE_EMAIL";
       kaggle_password := env "KAGGLE_PASSWORD";
       hubspot_accessToken := env "HUBSPOT_ACCESS_TOKEN";
       hubspot_apiBaseUrl :=
         or_default (env "HUBSPOT_API_BASE_URL")
                    "https://api.hubapi.com/crm/v3/objects/contacts";
       app_nodeEnv := or_default (env "NODE_ENV") "development";
       app_downloadDir := or_default (env "DOWNLOAD_DIR") "./downloads" |} in
  match find (fun envVar => JsString.falsy (env envVar)) requiredEnvVars with
  | Some envVar =>
      inl ("Missing required environment variable: " ++ envVar)%string
  | None => inr envConfig
  end.

(** What [axios.create] is given. *)
Record ClientOptions : Type := mkClientOptions {
  baseURL : string;
  header_Authorization : string;
  header_ContentType : string
}.

(** The constructor of [HubSpotSyncService]. *)
Definition HubSpotSyncService_new (envConfig : EnvConfig) : Error + ClientOptions :=
  match hubspot_accessToken envConfig with
  | Some (String c key) =>
      inr {| baseURL := "https://api.hubapi.com";
             header_Authorization := ("Bearer " ++ String c key)%string;
             header_ContentType := "application/json" |}
  | _ =>
      inl (AppError "MISSING_CONFIG" 400
                    "HubSpot API key not configured in environment")
  end.

(** An environment that sets the seven required variables and nothing
    else, and the configuration it loads to. *)
Definition sample_env : Env :=
  fun envVar =>
    if existsb (String.eqb envVar) requiredEnvVars then Some "secret" else None.

Definition sample_envConfig : EnvConfig :=
  {| db_host := Some "secret";
     db_name := Some "secret";
     db_user := Some "secret";
     db_password := Some "secret";
     kaggle_email := Some "secret";
     kaggle_password := Some "secret";
     hubspot_accessToken := Some "secret";
     hubspot_apiBaseUrl := "https://api.hubapi.com/crm/v3/objects/contacts";
     app_nodeEnv := "development";
     app_downloadDir := "./downloads" |}.

(** ** Facts about the string primitives *)

Module JsStringFacts.
Import JsString.

Lemma all_space_nil : all_space "".
Proof. constructor. Qed.

Lemma all_space_cons c s :
  is_space c = true -> all_space s -> all_space (String c s).
Proof. intros Hc Hs. constructor; assumption. Qed.

Lemma trimStart_split s :
  exists l, s = (l ++ trimStart s)%string /\ all_space l.
Proof.
  induction s as [|c s IH]; simpl.
  - exists ""; split; [reflexivity | apply all_space_nil].
  - destruct (is_space c) eqn:Hc.
    + destruct IH as [l [Hl Hsp]].
      exists (String c l); split.
      * simpl; congruence.
      * apply all_space_cons; assumption.
    + exists ""; split; [reflexivity | apply all_space_nil].
Qed.

Lemma trimStart_no_leading s : starts_with_space (trimStart s) = false.
Proof.
  induction s as [|c s IH]; simpl; [reflexivity|].
  destruct (is_space c) eqn:Hc; [exact IH | simpl; exact Hc].
Qed.

Lemma trimEnd_split s :
  exists r, s = (trimEnd s ++ r)%string /\ all_space r.
Proof.
  induction s as [|c s IH]; simpl.
  - exists ""; split; [reflexivity | apply all_space_nil].
  - destruct IH as [r [Hr Hsp]].
    destruct (trimEnd s) as [|d t] eqn:Ht.
    + destruct (is_space c) eqn:Hc.
      * exists (String c r); split.
        -- simpl in *; congruence.
        -- apply all_space_cons; assumption.
      * exists r; split; [simpl in *; congruence | assumption].
    + exists r; split; [simpl in *; congruence | assumption].
Qed.

Lemma trimEnd_no_trailing s : ends_with_space (trimEnd s) = false.
Proof.
  induction s as [|c s IH]; simpl; [reflexivity|].
  destruct (trimEnd s) as [|d t] eqn:Ht.
  - destruct (is_space c) eqn:Hc; simpl; [reflexivity | exact Hc].
  - simpl in *. exact IH.
Qed.

Lemma trimEnd_keeps_head s :
  starts_with_space s = false -> starts_with_space (trimEnd s) = false.
Proof.
  destruct s as [|c s]; simpl; [reflexivity|].
  intros Hc. destruct (trimEnd s); [rewrite Hc|]; simpl; assumption.
Qed.

Lemma trim_removes_surrounding_space s : surrounding_space_removed s (trim s).
Proof.
  unfold surrounding_space_removed, trim.
  destruct (trimStart_split s) as [l [Hl Hlsp]].
  destruct (trimEnd_split (trimStart s)) as [r [Hr Hrsp]].
  exists l, r. repeat split; try assumption.
  - rewrite <- Hr. exact Hl.
  - apply trimEnd_keeps_head, trimStart_no_leading.
  - apply trimEnd_no_trailing.
Qed.

Lemma length_append a b :
  String.length (a ++ b) = (String.length a + String.length b)%nat.
Proof. induction a as [|c a IH]; simpl; [reflexivity | now rewrite IH]. Qed.

(** Two concatenations with suffixes of one length agree piecewise. *)
Lemma append_inj_suffix a b s t :
  String.length s = String.length t ->
  (a ++ s)%string = (b ++ t)%string -> a = b /\ s = t.
Proof.
  revert b. induction a as [|c a IH]; intros [|d b] Hlen Heq; simpl in *.
  - split; [reflexivity | assumption].
  - exfalso. apply (f_equal String.length) in Heq. simpl in Heq.
    rewrite length_append in Heq. lia.
  - exfalso. apply (f_equal String.length) in Heq. simpl in Heq.
    rewrite length_append in Heq. lia.
  - injection Heq as Hc Hrest.
    destruct (IH b Hlen Hrest) as [-> ->]. subst. split; reflexivity.
Qed.

End JsStringFacts.

(** ** The upsert key *)

Lemma email_of_shape nm sx :
  email_of nm sx
  = (key_name nm ++ (match sx with
                     | M => ".m@babynamesdemo.com"
                     | F => ".f@babynamesdemo.com"
                     end))%string.
Proof. unfold email_of, key_name. destruct sx; reflexivity. Qed.

Lemma upsert_key_email r : upsert_key r = email_of (name r) (sex r).
Proof. reflexivity. Qed.

(** ** Ingestion: which records reach the store *)

Section IngestionFacts.

Variable sink : Sink.
Variable batchSize : Z.

Lemma records_produced_app l1 l2 :
  records_produced (l1 ++ l2) = records_produced l1 ++ records_produced l2.
Proof.
  unfold records_produced, write_attempts.
  rewrite flat_map_app, concat_app. reflexivity.
Qed.

Lemma skipped_rows_app l1 l2 :
  skipped_rows (l1 ++ l2) = skipped_rows l1 ++ skipped_rows l2.
Proof. unfold skipped_rows. apply flat_map_app. Qed.

Ltac produced :=
  rewrite ?records_produced_app; unfold records_produced, write_attempts;
  simpl; rewrite ?app_nil_r, <- ?app_assoc; reflexivity.

(** One ['data'] event: the row's record, if any, joins what was pushed
    so far, be it still in [batch] or already handed to the store. *)
Lemma on_data_records st row :
  records_produced (import_log (on_data sink batchSize st row))
    ++ batch (on_data sink batchSize st row)
  = records_produced (import_log st) ++ batch st ++ accepted_record row.
Proof.
  unfold on_data, accepted_record, passes_validation.
  destruct (Name row) as [[|c n]|], (Sex row) as [[|d s]|]; simpl;
    try produced.
  destruct (Z_length _ >=? batchSize); simpl; [|reflexivity].
  destruct (sink _ _); simpl; produced.
Qed.

Lemma on_data_skipped st row :
  List.length (skipped_rows (import_log (on_data sink batchSize st row)))
  = (List.length (skipped_rows (import_log st))
     + (if passes_validation row then 0 else 1))%nat.
Proof.
  unfold on_data, passes_validation.
  destruct (JsString.falsy (Name row) || JsString.falsy (Sex row)) eqn:Hv; simpl.
  - rewrite skipped_rows_app, length_app. reflexivity.
  - destruct (Name row) as [n|], (Sex row) as [s|]; try lia.
    destruct (Z_length _ >=? batchSize); simpl; [|lia].
    destruct (sink _ _); simpl; rewrite skipped_rows_app, length_app; simpl; lia.
Qed.

Lemma fold_on_data_records rows : forall st,
  let st' := fold_left (on_data sink batchSize) rows st in
  records_produced (import_log st') ++ batch st'
  = records_produced (import_log st) ++ batch st ++ flat_map accepted_record rows.
Proof.
  induction rows as [|row rows IH]; intros st; simpl.
  - now rewrite app_nil_r.
  - rewrite IH, app_assoc, on_data_records, <- !app_assoc. reflexivity.
Qed.

Lemma fold_on_data_skipped rows : forall st,
  List.length (skipped_rows (import_log (fold_left (on_data sink batchSize) rows st)))
  = (List.length (skipped_rows (import_log st))
     + List.length (filter (fun r => negb (passes_validation r)) rows))%nat.
Proof.
  induction rows as [|row rows IH]; intros st; simpl.
  - lia.
  - rewrite IH, on_data_skipped.
    destruct (passes_validation row); simpl; lia.
Qed.

Lemma Z_length_pos_nonempty {A} (l : list A) :
  (Z_length l >? 0) = false -> l = [].
Proof.
  destruct l; [reflexivity|]. unfold Z_length; simpl. intros H.
  discriminate H.
Qed.

Lemma on_end_records st :
  records_produced (import_log (snd (on_end sink st)))
  = records_produced (import_log st) ++ batch st.
Proof.
  unfold on_end. destruct (Z_length (batch st) >? 0) eqn:Hlen.
  - destruct (sink _ _); simpl; produced.
  - simpl. rewrite (Z_length_pos_nonempty _ Hlen), app_nil_r. reflexivity.
Qed.

Lemma on_end_skipped st :
  skipped_rows (import_log (snd (on_end sink st))) = skipped_rows (import_log st).
Proof.
  unfold on_end. destruct (Z_length (batch st) >? 0).
  - destruct (sink _ _); simpl; rewrite skipped_rows_app; simpl;
      apply app_nil_r.
  - reflexivity.
Qed.

Lemma import_log_shape rows finish :
  exists tail,
    snd (import sink batchSize rows finish)
    = import_log (snd (read_stream sink batchSize rows finish)) ++ tail
    /\ records_produced tail = [] /\ skipped_rows tail = [].
Proof.
  unfold import. destruct (read_stream _ _ _ _) as [[n|err] st]; simpl;
    eexists; repeat split.
Qed.

(** Every row that passes validation reaches one bulk insert, in input
    order, whatever the store answered. *)
Lemma import_records_produced rows :
  records_produced (snd (import sink batchSize rows StreamEnds))
  = flat_map accepted_record rows.
Proof.
  destruct (import_log_shape rows StreamEnds) as [tail [-> [Ht _]]].
  rewrite records_produced_app, Ht, app_nil_r.
  unfold read_stream. rewrite on_end_records.
  pose proof (fold_on_data_records rows import_start) as H.
  simpl in H. exact H.
Qed.

Lemma import_skipped rows :
  List.length (skipped_rows (snd (import sink batchSize rows StreamEnds)))
  = List.length (filter (fun r => negb (passes_validation r)) rows).
Proof.
  destruct (import_log_shape rows StreamEnds) as [tail [-> [_ Ht]]].
  rewrite skipped_rows_app, Ht, app_nil_r.
  unfold read_stream. rewrite on_end_skipped, fold_on_data_skipped.
  reflexivity.
Qed.

End IngestionFacts.

Lemma record_of_normalized row n s :
  Name row = Some n -> Sex row = Some s -> normalized row (record_of n s).
Proof.
  intros Hn Hs. exists n, s. unfold record_of; simpl.
  repeat split; try assumption.
  - apply JsStringFacts.trim_removes_surrounding_space.
  - destruct (String.eqb_spec (JsString.trim s) "M"); congruence.
  - destruct (String.eqb_spec (JsString.trim s) "M"); congruence.
  - destruct (String.eqb_spec (JsString.trim s) "M"); congruence.
  - destruct (String.eqb_spec (JsString.trim s) "M"); congruence.
Qed.

Lemma accepted_records_normalized rows :
  Forall2 normalized (filter passes_validation rows) (flat_map accepted_record rows).
Proof.
  induction rows as [|row rows IH]; simpl; [constructor|].
  unfold accepted_record at 1.
  destruct (passes_validation row) eqn:Hv.
  - destruct (Name row) as [n|] eqn:Hn, (Sex row) as [s|] eqn:Hs;
      try (unfold passes_validation in Hv; rewrite ?Hn, ?Hs in Hv; simpl in Hv;
           rewrite ?orb_true_r in Hv; discriminate).
    simpl. constructor; [apply record_of_normalized; assumption | exact IH].
  - destruct (Name row), (Sex row); simpl; exact IH.
Qed.

(** C5. Every row that passes validation yields a record whose name is the
    row's [Name] with the surrounding white space trimmed and whose sex is
    [M] exactly when the trimmed [Sex] equals ["M"], and [F] otherwise; the
    other rows are skipped. On the scenario rows with threshold 2 one row
    (the second) is skipped and the records are John/M and Ann/F. *)
Theorem validated_rows_are_normalized :
  forall (sink : Sink) (batchSize : Z) (rows : list CsvRow),
    let log := snd (import sink batchSize rows StreamEnds) in
    Forall2 normalized (filter passes_validation rows) (records_produced log)
    /\ List.length (skipped_rows log)
       = List.length (filter (fun r => negb (passes_validation r)) rows)
    /\ (let scenario := snd (import sink 2 scenario_rows StreamEnds) in
        skipped_rows scenario = [2]
        /\ records_produced scenario
           = [ {| attr_name := "John"; attr_sex := M |};
               {| attr_name := "Ann"; attr_sex := F |} ]).
Proof.
  intros sink batchSize rows log. subst log.
  rewrite import_records_produced, import_skipped.
  split; [apply accepted_records_normalized|].
  split; [reflexivity|].
  split; [|rewrite import_records_produced; reflexivity].
  vm_compute.
  match goal with |- context [sink ?k ?b] => destruct (sink k b) end; reflexivity.
Qed.

(** ** Ingestion: store write errors *)

Section WriteErrors.

Variable sink : Sink.
Variable batchSize : Z.

Ltac logs :=
  unfold failed_writes, batch_error_logs, final_error_logs in *;
  rewrite ?flat_map_app; simpl; rewrite ?app_nil_r.

Lemma import_start_between_rows : between_rows batchSize import_start.
Proof. repeat split. left; reflexivity. Qed.

Lemma on_data_between_rows st row :
  between_rows batchSize st -> between_rows batchSize (on_data sink batchSize st row).
Proof.
  intros [Hf [Hn Hb]]. unfold on_data.
  destruct (JsString.falsy (Name row) || JsString.falsy (Sex row)).
  - repeat split; simpl; logs; assumption.
  - destruct (Name row) as [n|], (Sex row) as [s|];
      try (repeat split; assumption).
    destruct (Z_length _ >=? batchSize) eqn:Hlen.
    + destruct (sink _ _); repeat split; simpl; logs;
        try assumption; try (left; reflexivity).
      rewrite Hf. reflexivity.
    + repeat split; simpl; try assumption.
      right. rewrite Z.geb_leb in Hlen.
      apply Z.leb_gt in Hlen. exact Hlen.
Qed.

Lemma fold_on_data_between_rows rows : forall st,
  between_rows batchSize st ->
  between_rows batchSize (fold_left (on_data sink batchSize) rows st).
Proof.
  induction rows as [|row rows IH]; intros st H; simpl; [exact H|].
  apply IH, on_data_between_rows, H.
Qed.

(** What the run settles to, read off the state the last row left. *)
Lemma import_outcome rows :
  let st := fold_left (on_data sink batchSize) rows import_start in
  import sink batchSize rows StreamEnds
  = if Z_length (batch st) >? 0
    then match sink (writes st) (batch st) with
         | Created remaining =>
             (ImportResolved (totalInserted st + Z_length remaining),
              import_log st
                ++ [IvBulkCreate (batch st) (Created remaining)] ++ [IvClose])
         | WriteFailed err =>
             (ImportRejected err,
              import_log st
                ++ [IvBulkCreate (batch st) (WriteFailed err);
                    IvFinalBatchError err; IvHandleError err; IvClose])
         end
    else (ImportResolved (totalInserted st), import_log st ++ [IvClose]).
Proof.
  intros st. unfold import, read_stream, on_end. fold st.
  destruct (Z_length (batch st) >? 0); [|reflexivity].
  destruct (sink _ _); simpl; rewrite <- app_assoc; reflexivity.
Qed.

End WriteErrors.

(** C4, as the code has it. A bulk insert that fails while rows are still
    arriving is logged and the run goes on: every validated row still
    reaches an insert, and every failed insert is logged. The run is
    rejected exactly when the insert of the final partial batch, flushed at
    end of input, fails: that error is logged and surfaced. *)
Theorem write_errors_swallowed_until_final_flush :
  forall (sink : Sink) (batchSize : Z) (rows : list CsvRow),
    let res := fst (import sink batchSize rows StreamEnds) in
    let log := snd (import sink batchSize rows StreamEnds) in
    let last := fold_left (on_data sink batchSize) rows import_start in
    records_produced log = flat_map accepted_record rows
    /\ failed_writes log = batch_error_logs log ++ final_error_logs log
    /\ (forall err,
          batch last <> [] ->
          sink (writes last) (batch last) = WriteFailed err ->
          res = ImportRejected err)
    /\ match res with
       | ImportResolved _ => final_error_logs log = []
       | ImportRejected err =>
           exists pre b,
             log = pre ++ [IvBulkCreate b (WriteFailed err);
                           IvFinalBatchError err; IvHandleError err; IvClose]
             /\ b <> [] /\ Z_length b < batchSize
             /\ final_error_logs pre = []
       end.
Proof.
  intros sink batchSize rows res log last.
  split; [apply import_records_produced|].
  subst res log. rewrite import_outcome.
  pose proof (fold_on_data_between_rows sink batchSize rows _
                (import_start_between_rows batchSize)) as [Hf [Hn Hb]].
  fold last in Hf, Hn, Hb |- *.
  destruct (Z_length (batch last) >? 0) eqn:Hlen.
  - destruct (sink (writes last) (batch last)) as [remaining|err]; simpl.
    + unfold failed_writes, batch_error_logs, final_error_logs in *.
      rewrite !flat_map_app; simpl. rewrite Hn, !app_nil_r.
      split; [exact Hf|]. split; [|reflexivity].
      intros err _ Hfail. discriminate Hfail.
    + split.
      * unfold failed_writes, batch_error_logs, final_error_logs in *.
        rewrite !flat_map_app; simpl. rewrite Hn, Hf, !app_nil_r. reflexivity.
      * split; [intros err' _ Hfail; injection Hfail as ->; reflexivity|].
        exists (import_log last), (batch last). repeat split; try assumption.
        -- intros Hnil. rewrite Hnil in Hlen. discriminate Hlen.
        -- destruct Hb as [Hnil|Hlt]; [|exact Hlt].
           rewrite Hnil in Hlen. discriminate Hlen.
  - simpl. unfold failed_writes, batch_error_logs, final_error_logs in *.
    rewrite !flat_map_app; simpl. rewrite Hn, !app_nil_r.
    split; [exact Hf|]. split; [|reflexivity].
    intros err Hne _. exfalso. apply Hne.
    apply Z_length_pos_nonempty, Hlen.
Qed.

(** C4 as stated fails: a store that rejects the final partial batch makes
    the run end with that error instead of a count. *)
Lemma final_flush_write_error_is_fatal :
  let run := import rejecting_sink 1000
               [ {| Name := Some "Ann"; Sex := Some "F" |} ] StreamEnds in
  run = (ImportRejected (StoreError "ER_LOCK_DEADLOCK"),
         [ IvBulkCreate [ {| attr_name := "Ann"; attr_sex := F |} ]
             (WriteFailed (StoreError "ER_LOCK_DEADLOCK"));
           IvFinalBatchError (StoreError "ER_LOCK_DEADLOCK");
           IvHandleError (StoreError "ER_LOCK_DEADLOCK");
           IvClose ])
  /\ ~ (exists total, fst run = ImportResolved total).
Proof.
  split; [reflexivity|].
  intros [total H]. discriminate H.
Qed.

(** ** Egress: the upsert key *)

(** When two rows share an upsert key. The key is computed from the name
    and the sex alone (never from the store id), and two rows share a key
    exactly when their sexes are equal and their names are equal once
    lower-cased with every run of white space replaced by one dot. *)
Theorem upsert_key_equal_iff :
  forall r1 r2 : BabyNameRow,
    upsert_key r1 = email_of (name r1) (sex r1)
    /\ (upsert_key r1 = upsert_key r2
        <-> sex r1 = sex r2 /\ key_name (name r1) = key_name (name r2)).
Proof.
  intros r1 r2. split; [reflexivity|].
  rewrite !upsert_key_email, !email_of_shape. split.
  - intros H. apply JsStringFacts.append_inj_suffix in H.
    + destruct H as [Hn Hs]. split; [|exact Hn].
      destruct (sex r1), (sex r2); try reflexivity; discriminate Hs.
    + destruct (sex r1), (sex r2); reflexivity.
  - intros [Hs Hn]. rewrite Hs, Hn. reflexivity.
Qed.

(** C6. The email built "to use as identifier for upsert" is meant to be
    unique, but it is not: the rows John/M and john/M differ in name and
    are both sent under the key john.m@babynamesdemo.com. *)
Lemma upsert_key_not_unique :
  let r1 := {| id := 1; name := "John"; sex := M |} in
  let r2 := {| id := 2; name := "john"; sex := M |} in
  (name r1 <> name r2 \/ sex r1 <> sex r2)
  /\ upsert_key r1 = upsert_key r2
  /\ upsert_key r1 = "john.m@babynamesdemo.com".
Proof.
  split; [left; discriminate|]. split; reflexivity.
Qed.

(** ** Rules for effectful code *)

Lemma hoare_ret {A} (a : A) (P : World -> Prop) (Q : Outcome A -> World -> Prop) :
  (forall w, P w -> Q (Done a) w) -> hoare P (ret a) Q.
Proof. intros H w Hw. apply H, Hw. Qed.

Lemma hoare_throw {A} (e : Error) (P : World -> Prop) (Q : Outcome A -> World -> Prop) :
  (forall w, P w -> Q (Thrown e) w) -> hoare P (throw e) Q.
Proof. intros H w Hw. apply H, Hw. Qed.

Lemma hoare_diverge {A} (P : World -> Prop) (Q : Outcome A -> World -> Prop) :
  (forall w, P w -> Q Diverged w) -> hoare P diverge Q.
Proof. intros H w Hw. apply H, Hw. Qed.

Lemma hoare_bind {A B} (m : Eff A) (k : A -> Eff B)
      (P : World -> Prop) (R : Outcome A -> World -> Prop)
      (Q : Outcome B -> World -> Prop) :
  hoare P m R ->
  (forall a, hoare (R (Done a)) (k a) Q) ->
  (forall e w, R (Thrown e) w -> Q (Thrown e) w) ->
  (forall w, R Diverged w -> Q Diverged w) ->
  hoare P (bind m k) Q.
Proof.
  intros Hm Hk He Hd w Hw. specialize (Hm w Hw). unfold bind.
  destruct (m w) as [[a|e|] w']; simpl in *.
  - apply Hk, Hm.
  - apply He, Hm.
  - apply Hd, Hm.
Qed.

Lemma hoare_weaken {A} (m : Eff A) (P P' : World -> Prop)
      (Q Q' : Outcome A -> World -> Prop) :
  hoare P' m Q' ->
  (forall w, P w -> P' w) ->
  (forall r w, Q' r w -> Q r w) ->
  hoare P m Q.
Proof. intros H HP HQ w Hw. apply HQ, H, HP, Hw. Qed.

Lemma bind_assoc {A B C} (m : Eff A) (k : A -> Eff B) (h : B -> Eff C) w :
  bind (bind m k) h w = bind m (fun a => bind (k a) h) w.
Proof. unfold bind. destruct (m w) as [[a|e|] w']; reflexivity. Qed.

Lemma bind_ext {A B} (m : Eff A) (k k' : A -> Eff B) w :
  (forall a w', k a w' = k' a w') -> bind m k w = bind m k' w.
Proof. intros H. unfold bind. destruct (m w) as [[a|e|] w']; [apply H | |]; reflexivity. Qed.

Lemma posts_app tr1 tr2 : posts (tr1 ++ tr2) = posts tr1 ++ posts tr2.
Proof. unfold posts. apply flat_map_app. Qed.

Lemma fetches_app tr1 tr2 : fetches (tr1 ++ tr2) = fetches tr1 ++ fetches tr2.
Proof. unfold fetches. apply flat_map_app. Qed.

Lemma Z_length_map {A B} (f : A -> B) (l : list A) : Z_length (map f l) = Z_length l.
Proof. unfold Z_length. now rewrite length_map. Qed.

Lemma Z_length_snoc {A} (l : list A) (x : A) : Z_length (l ++ [x]) = Z_length l + 1.
Proof. unfold Z_length. rewrite length_app. simpl. lia. Qed.

Lemma Z_length_nonneg {A} (l : list A) : 0 <= Z_length l.
Proof. unfold Z_length. lia. Qed.

(** ** Egress: size of the outgoing calls *)

Section BatchSizeContract.

Variable table : Table.
Variable remote : Remote.
Variable pageSize : Z.
Variable batchSize : Z.
Variable maxContactsToSync : Z.
Hypothesis batchSize_pos : 1 <= batchSize.

Let within := posts_within batchSize.

Lemma post_within inputs :
  1 <= Z_length inputs <= batchSize ->
  hoare within (post remote inputs) (fun _ w => within w).
Proof.
  intros Hlen w Hw. unfold within, posts_within in *. simpl.
  rewrite posts_app. apply Forall_app. split; [exact Hw|].
  simpl. constructor; [exact Hlen | constructor].
Qed.

Lemma emit_within e :
  posts [e] = [] -> hoare within (emit e) (fun _ w => within w).
Proof.
  intros He w Hw. unfold within, posts_within in *. simpl.
  rewrite posts_app, He, app_nil_r. exact Hw.
Qed.

Lemma sendBatchToHubSpot_within fuel batch :
  1 <= Z_length batch <= batchSize ->
  hoare within (sendBatchToHubSpot remote fuel batch) (fun _ w => within w).
Proof.
  intros Hlen. induction fuel as [|fuel IH]; simpl.
  - apply hoare_diverge. trivial.
  - apply hoare_bind with (R := fun _ w => within w); [ | | trivial | trivial ].
    + apply post_within. now rewrite Z_length_map.
    + intros [status|status].
      * apply hoare_ret. trivial.
      * destruct status as [[|p|p]|]; try (apply hoare_throw; trivial).
        repeat (destruct p as [p|p|]; try (apply hoare_throw; trivial)).
        apply hoare_bind with (R := fun _ w => within w); [ | | trivial | trivial ].
        -- apply emit_within. reflexivity.
        -- intros _. exact IH.
Qed.

(** The loop variables between two records: the pending batch is below
    the limit. *)
Let pending (r : Outcome (Z * list Contact)) (w : World) : Prop :=
  within w /\ match r with
              | Done (_, currentBatch) => Z_length currentBatch < batchSize
              | _ => True
              end.

Lemma add_records_within fuel records : forall totalSynced currentBatch,
  Z_length currentBatch < batchSize ->
  hoare within
        (add_records remote batchSize maxContactsToSync fuel records
                     totalSynced currentBatch)
        pending.
Proof.
  induction records as [|record rest IH]; intros totalSynced currentBatch Hlt; simpl.
  - apply hoare_ret. intros w Hw. split; assumption.
  - destruct (totalSynced >=? maxContactsToSync).
    + apply hoare_ret. intros w Hw. split; assumption.
    + destruct (Z_length (currentBatch ++ _) >=? batchSize) eqn:Hfull.
      * apply hoare_bind with (R := fun _ w => within w); [ | | split; trivial | split; trivial ].
        -- apply sendBatchToHubSpot_within.
           rewrite Z_length_snoc. pose proof (Z_length_nonneg currentBatch). lia.
        -- intros _. apply IH. unfold Z_length; simpl. lia.
      * apply IH. rewrite Z.geb_leb in Hfull. apply Z.leb_gt in Hfull. exact Hfull.
Qed.

Lemma flush_remaining_within fuel totalSynced currentBatch :
  Z_length currentBatch < batchSize ->
  hoare within (flush_remaining remote fuel totalSynced currentBatch)
        (fun _ w => within w).
Proof.
  intros Hlt. unfold flush_remaining.
  destruct (Z_length currentBatch >? 0) eqn:Hpos.
  - apply hoare_bind with (R := fun _ w => within w); [ | | trivial | trivial ].
    + apply sendBatchToHubSpot_within.
      rewrite Z.gtb_ltb in Hpos. apply Z.ltb_lt in Hpos. lia.
    + intros _. apply hoare_ret. trivial.
  - apply hoare_ret. trivial.
Qed.

Lemma fetch_within fetchLimit off :
  hoare within (fetch table fetchLimit off) (fun _ w => within w).
Proof.
  unfold fetch. apply hoare_bind with (R := fun _ w => within w); [ | | trivial | trivial ].
  - apply emit_within. reflexivity.
  - intros _. apply hoare_ret. trivial.
Qed.

Lemma sync_loop_within fuel0 fuel : forall totalSynced currentBatch off,
  Z_length currentBatch < batchSize ->
  hoare within
        (sync_loop table remote pageSize batchSize maxContactsToSync
                   fuel0 fuel totalSynced currentBatch off)
        (fun _ w => within w).
Proof.
  induction fuel as [|fuel IH]; intros totalSynced currentBatch off Hlt; simpl.
  - apply hoare_diverge. trivial.
  - destruct (totalSynced <? maxContactsToSync); [|apply hoare_ret; trivial].
    apply hoare_bind with (R := fun _ w => within w); [ | | trivial | trivial ].
    + apply fetch_within.
    + intros records. destruct (Z_length records =? 0).
      * apply flush_remaining_within, Hlt.
      * apply hoare_bind with (R := pending).
        -- apply add_records_within, Hlt.
        -- intros [total' batch']. intros w [Hw Hb]; revert w Hw.
           destruct (total' >=? maxContactsToSync).
           ++ apply flush_remaining_within, Hb.
           ++ apply IH, Hb.
        -- intros e w [Hw _]. exact Hw.
        -- intros w [Hw _]. exact Hw.
Qed.

Lemma sync_with_within fuel :
  hoare within
        (sync_with table remote pageSize batchSize maxContactsToSync fuel)
        (fun _ w => within w).
Proof.
  intros w Hw. unfold sync_with.
  pose proof (sync_loop_within fuel fuel 0 [] 0) as H.
  specialize (H ltac:(unfold Z_length; simpl; lia) w Hw).
  destruct (sync_loop _ _ _ _ _ _ _ _ _ _ w) as [[n|e|] w']; simpl in *.
  - unfold within, posts_within in *. simpl. rewrite posts_app, app_nil_r. exact H.
  - unfold within, posts_within in *. simpl. rewrite !posts_app, !app_nil_r. exact H.
  - exact H.
Qed.

End BatchSizeContract.

(** C7. Whatever the page size, the table, the remote and the cap, every
    request of an egress run carries at least 1 and at most 100 entries;
    this holds of the trace at every point the run can stop at. *)
Theorem outgoing_calls_within_batch_limit :
  forall (table : Table) (remote : Remote) (pageSize maxContactsToSync : Z)
         (fuel : nat),
    Forall (fun inputs => 1 <= Z_length inputs <= 100)
           (posts (trace (snd (sync_with table remote pageSize 100
                                         maxContactsToSync fuel initial_world)))).
Proof.
  intros table remote pageSize maxContactsToSync fuel.
  apply (sync_with_within table remote pageSize 100 maxContactsToSync
                          ltac:(lia) fuel initial_world).
  constructor.
Qed.

(** ** Egress: the send protocol *)

Lemma status_is_cases {A} (status : option Z) (a b c d : A) :
  match status with
  | Some 401 => a
  | Some 429 => b
  | Some 400 => c
  | _ => d
  end
  = if status_is status 401 then a
    else if status_is status 429 then b
    else if status_is status 400 then c else d.
Proof.
  destruct status as [[|p|p]|]; try reflexivity.
  all: repeat (destruct p as [p|p|]; try reflexivity).
Qed.

Lemma unauthorized_post inputs status :
  unauthorized (EvPost inputs (Rejected status)) = status_is status 401.
Proof.
  destruct status as [[|p|p]|]; try reflexivity.
  all: repeat (destruct p as [p|p|]; try reflexivity).
Qed.

Lemma status_is_true status code : status_is status code = true -> status = Some code.
Proof.
  destruct status as [s|]; simpl; [|discriminate].
  intros H. apply Z.eqb_eq in H. now subst.
Qed.

(** One attempt of [sendBatchToHubSpot]. *)
Lemma sendBatchToHubSpot_attempt remote fuel batch w :
  sendBatchToHubSpot remote (S fuel) batch w
  = let inputs := map upsert_input batch in
    let r := remote (requests w) in
    let w1 := {| requests := S (requests w);
                 trace := trace w ++ [EvPost inputs r] |} in
    match r with
    | Resolved _ => (Done tt, w1)
    | Rejected status =>
        if status_is status 401 then (Thrown auth_error, w1)
        else if status_is status 429
             then sendBatchToHubSpot remote fuel batch
                    {| requests := S (requests w);
                       trace := trace w1 ++ [EvWait 1000] |}
             else (Thrown (RequestError status), w1)
    end.
Proof.
  cbn [sendBatchToHubSpot]. unfold bind at 1, post.
  destruct (remote (requests w)) as [s|status]; [reflexivity|].
  rewrite status_is_cases.
  destruct (status_is status 401); [reflexivity|].
  destruct (status_is status 429); [reflexivity|].
  destruct (status_is status 400); reflexivity.
Qed.

(** The run ends with what the loop ended with, plus the events of
    [catch] and [finally], none of which is a request or a page fetch. *)
Lemma sync_with_epilogue table remote pageSize batchSize maxContactsToSync fuel w :
  let loop := sync_loop table remote pageSize batchSize maxContactsToSync
                        fuel fuel 0 [] 0 w in
  exists tail,
    sync_with table remote pageSize batchSize maxContactsToSync fuel w
    = (fst loop, {| requests := requests (snd loop);
                    trace := trace (snd loop) ++ tail |})
    /\ never_unauthorized tail /\ posts tail = [] /\ fetches tail = [].
Proof.
  intros loop. unfold sync_with. fold loop.
  destruct loop as [[n|e|] w']; unfold bind, emit, ret, throw; simpl.
  - exists [EvClose]. repeat split. repeat constructor.
  - exists [EvHandleError e; EvClose]. rewrite <- app_assoc.
    repeat split. repeat constructor.
  - exists []. rewrite app_nil_r. destruct w'. repeat split. constructor.
Qed.

(** C8. A batch answered 429 is sent again, unchanged, after a wait of
    1000 ms; when the remote answers a batch with 429, 429 and then a
    success, the send returns normally after three requests carrying that
    same batch, two waits in between, the last request being the one
    delivery. *)
Theorem throttled_batch_is_retried :
  forall (remote : Remote) (batch : list Contact) (w : World) (fuel : nat),
    remote (requests w) = Rejected (Some 429) ->
    let inputs := map upsert_input batch in
    let throttled := EvPost inputs (Rejected (Some 429)) in
    sendBatchToHubSpot remote (S fuel) batch w
    = sendBatchToHubSpot remote fuel batch
        {| requests := S (requests w);
           trace := trace w ++ [throttled; EvWait 1000] |}
    /\ forall status,
        remote (S (requests w)) = Rejected (Some 429) ->
        remote (S (S (requests w))) = Resolved status ->
        sendBatchToHubSpot remote (S (S (S fuel))) batch w
        = (Done tt,
           {| requests := S (S (S (requests w)));
              trace := trace w ++ [throttled; EvWait 1000;
                                   throttled; EvWait 1000;
                                   EvPost inputs (Resolved status)] |}).
Proof.
  intros remote batch w fuel H0 inputs throttled.
  assert (Hstep : forall f,
             sendBatchToHubSpot remote (S f) batch w
             = sendBatchToHubSpot remote f batch
                 {| requests := S (requests w);
                    trace := trace w ++ [throttled; EvWait 1000] |}).
  { intros f. rewrite sendBatchToHubSpot_attempt. cbv zeta. rewrite H0.
    simpl status_is. cbv iota. cbn [trace requests].
    rewrite <- app_assoc. reflexivity. }
  split; [apply Hstep|].
  intros status H1 H2.
  rewrite Hstep, sendBatchToHubSpot_attempt. cbv zeta. cbn [trace requests].
  rewrite H1. simpl status_is. cbv iota.
  rewrite sendBatchToHubSpot_attempt. cbv zeta. cbn [trace requests].
  rewrite H2. rewrite <- !app_assoc. reflexivity.
Qed.

(** Three contacts against a remote that throttles twice. *)
Lemma throttled_batch_is_retried_example :
  sendBatchToHubSpot throttled_twice 3 three_contacts initial_world
  = (Done tt,
     {| requests := 3;
        trace := [ EvPost (map upsert_input three_contacts) (Rejected (Some 429));
                   EvWait 1000;
                   EvPost (map upsert_input three_contacts) (Rejected (Some 429));
                   EvWait 1000;
                   EvPost (map upsert_input three_contacts) (Resolved 200) ] |}).
Proof.
  destruct (throttled_batch_is_retried throttled_twice three_contacts
              initial_world 0 eq_refl) as [_ H].
  exact (H 200 eq_refl eq_refl).
Defined.

(** ** Egress: invalid credentials *)

Lemma never_unauthorized_snoc tr e :
  never_unauthorized tr -> unauthorized e = false -> never_unauthorized (tr ++ [e]).
Proof.
  intros Htr He. apply Forall_app. split; [exact Htr | constructor; [exact He | constructor]].
Qed.

Lemma never_unauthorized_app tr1 tr2 :
  never_unauthorized tr1 -> never_unauthorized tr2 -> never_unauthorized (tr1 ++ tr2).
Proof. intros H1 H2. apply Forall_app. split; assumption. Qed.

(** Where the trace of an aborted run can be cut at a 401: only at its
    last request, so that nothing is sent after it. *)
Lemma cut_at_unauthorized tail : forall tr pre inputs suf,
  never_unauthorized tr \/ just_unauthorized tr ->
  never_unauthorized tail ->
  posts tail = [] ->
  tr ++ tail = pre ++ EvPost inputs (Rejected (Some 401)) :: suf ->
  just_unauthorized tr /\ posts suf = [].
Proof.
  intros tr pre inputs suf [Hnever|Hjust] Htail Hposts Heq.
  - exfalso.
    pose proof (never_unauthorized_app _ _ Hnever Htail) as Hall.
    rewrite Heq in Hall. apply Forall_app in Hall. destruct Hall as [_ Hall].
    inversion Hall as [|? ? Hx _]. discriminate Hx.
  - split; [exact Hjust|].
    destruct Hjust as [pre0 [inputs0 [-> Hpre0]]].
    revert pre Heq. induction pre0 as [|a pre0 IH]; intros pre Heq.
    + destruct pre as [|b pre]; simpl in Heq.
      * injection Heq as _ Hsuf. now subst.
      * injection Heq as _ Hrest. exfalso.
        rewrite Hrest in Htail. apply Forall_app in Htail.
        destruct Htail as [_ Htail]. inversion Htail as [|? ? Hx _].
        discriminate Hx.
    + inversion Hpre0 as [|? ? Ha Hpre0']; subst.
      destruct pre as [|b pre]; simpl in Heq.
      * injection Heq as Hab _. subst a. discriminate Ha.
      * injection Heq as _ Hrest. apply (IH Hpre0' pre Hrest).
Qed.

Section Unauthorized.

Variable table : Table.
Variable remote : Remote.
Variable pageSize : Z.
Variable batchSize : Z.
Variable maxContactsToSync : Z.

Let clean (w : World) : Prop := never_unauthorized (trace w).

Lemma bind_stops_on_unauthorized {A B} (m : Eff A) (k : A -> Eff B) :
  hoare clean m stops_on_unauthorized ->
  (forall a, hoare clean (k a) stops_on_unauthorized) ->
  hoare clean (bind m k) stops_on_unauthorized.
Proof.
  intros Hm Hk. apply hoare_bind with (R := stops_on_unauthorized).
  - exact Hm.
  - intros a. apply hoare_weaken with (P' := clean) (Q' := stops_on_unauthorized).
    + apply Hk.
    + intros w [H|[H _]]; [exact H | discriminate H].
    + trivial.
  - intros e w [H|[H Hj]]; [left; exact H|].
    right. split; [|exact Hj]. injection H as ->. reflexivity.
  - intros w [H|[H _]]; [left; exact H | discriminate H].
Qed.

Lemma ret_stops_on_unauthorized {A} (a : A) :
  hoare clean (ret a) stops_on_unauthorized.
Proof. intros w Hw. left. exact Hw. Qed.

Lemma emit_stops_on_unauthorized e :
  unauthorized e = false -> hoare clean (emit e) stops_on_unauthorized.
Proof. intros He w Hw. left. simpl. apply never_unauthorized_snoc; assumption. Qed.

Lemma sendBatchToHubSpot_stops_on_unauthorized fuel batch :
  hoare clean (sendBatchToHubSpot remote fuel batch) stops_on_unauthorized.
Proof.
  induction fuel as [|fuel IH]; intros w Hw.
  - left. exact Hw.
  - rewrite sendBatchToHubSpot_attempt. cbv zeta.
    destruct (remote (requests w)) as [s|status] eqn:Hr.
    + left. simpl. apply never_unauthorized_snoc; [exact Hw | reflexivity].
    + destruct (status_is status 401) eqn:H401.
      * right. split; [reflexivity|]. simpl.
        apply status_is_true in H401. subst status.
        exists (trace w), (map upsert_input batch). split; [reflexivity | exact Hw].
      * assert (Hclean : never_unauthorized
                           (trace w ++ [EvPost (map upsert_input batch) (Rejected status)])).
        { apply never_unauthorized_snoc; [exact Hw|].
          rewrite unauthorized_post. exact H401. }
        destruct (status_is status 429).
        -- apply IH. unfold clean. simpl.
           apply never_unauthorized_snoc; [exact Hclean | reflexivity].
        -- left. exact Hclean.
Qed.

Lemma add_records_stops_on_unauthorized fuel records :
  forall totalSynced currentBatch,
    hoare clean
          (add_records remote batchSize maxContactsToSync fuel records
                       totalSynced currentBatch)
          stops_on_unauthorized.
Proof.
  induction records as [|record rest IH]; intros totalSynced currentBatch; simpl.
  - apply ret_stops_on_unauthorized.
  - destruct (totalSynced >=? maxContactsToSync);
      [apply ret_stops_on_unauthorized|].
    destruct (Z_length _ >=? batchSize); [|apply IH].
    apply bind_stops_on_unauthorized.
    + apply sendBatchToHubSpot_stops_on_unauthorized.
    + intros _. apply IH.
Qed.

Lemma flush_remaining_stops_on_unauthorized fuel totalSynced currentBatch :
  hoare clean (flush_remaining remote fuel totalSynced currentBatch)
        stops_on_unauthorized.
Proof.
  unfold flush_remaining. destruct (Z_length currentBatch >? 0).
  - apply bind_stops_on_unauthorized.
    + apply sendBatchToHubSpot_stops_on_unauthorized.
    + intros _. apply ret_stops_on_unauthorized.
  - apply ret_stops_on_unauthorized.
Qed.

Lemma sync_loop_stops_on_unauthorized fuel0 fuel :
  forall totalSynced currentBatch off,
    hoare clean
          (sync_loop table remote pageSize batchSize maxContactsToSync
                     fuel0 fuel totalSynced currentBatch off)
          stops_on_unauthorized.
Proof.
  induction fuel as [|fuel IH]; intros totalSynced currentBatch off; simpl.
  - intros w Hw. left. exact Hw.
  - destruct (totalSynced <? maxContactsToSync);
      [|apply ret_stops_on_unauthorized].
    apply bind_stops_on_unauthorized.
    + unfold fetch. apply bind_stops_on_unauthorized.
      * apply emit_stops_on_unauthorized. reflexivity.
      * intros _. apply ret_stops_on_unauthorized.
    + intros records. destruct (Z_length records =? 0).
      * apply flush_remaining_stops_on_unauthorized.
      * apply bind_stops_on_unauthorized.
        -- apply add_records_stops_on_unauthorized.
        -- intros [total' batch']. destruct (total' >=? maxContactsToSync).
           ++ apply flush_remaining_stops_on_unauthorized.
           ++ apply IH.
Qed.

Lemma sync_with_unauthorized fuel pre inputs suf :
  let run := sync_with table remote pageSize batchSize maxContactsToSync
                       fuel initial_world in
  trace (snd run) = pre ++ EvPost inputs (Rejected (Some 401)) :: suf ->
  fst run = Thrown auth_error /\ posts suf = [].
Proof.
  intros run. subst run.
  destruct (sync_with_epilogue table remote pageSize batchSize
              maxContactsToSync fuel initial_world) as [tail [-> [Ht [Hp _]]]].
  pose proof (sync_loop_stops_on_unauthorized fuel fuel 0 [] 0 initial_world
                ltac:(constructor)) as Hloop.
  cbn [fst snd trace]. intros Heq.
  assert (Hcut : just_unauthorized
                   (trace (snd (sync_loop table remote pageSize batchSize
                                          maxContactsToSync fuel fuel 0 [] 0
                                          initial_world)))
                 /\ posts suf = []).
  { apply (cut_at_unauthorized tail _ pre inputs suf); try assumption.
    destruct Hloop as [H|[_ H]]; [left | right]; exact H. }
  destruct Hcut as [Hjust Hsuf].
  split; [|exact Hsuf].
  destruct Hloop as [H|[H _]]; [|exact H]. exfalso.
  destruct Hjust as [pre0 [inputs0 [Htr _]]]. rewrite Htr in H.
  apply Forall_app in H. destruct H as [_ H].
  inversion H as [|? ? Hx _]. discriminate Hx.
Qed.

End Unauthorized.

(** C9. When a request of an egress run is answered 401, the run ends by
    throwing the authentication error to the caller, and that request is
    the last one: the batch is not sent again and no other request
    follows. *)
Theorem unauthorized_aborts_the_run :
  forall (table : Table) (remote : Remote) (maxContactsToSync : Z) (fuel : nat)
         (pre : list Event) (inputs : list UpsertInput) (suf : list Event),
    trace (snd (sync table remote maxContactsToSync fuel))
    = pre ++ EvPost inputs (Rejected (Some 401)) :: suf ->
    fst (sync table remote maxContactsToSync fuel)
    = Thrown (AppError "HUBSPOT_AUTH_ERROR" 401 "Invalid HubSpot API key")
    /\ posts suf = [].
Proof.
  intros table remote maxContactsToSync fuel pre inputs suf H.
  exact (sync_with_unauthorized table remote 5000 100 maxContactsToSync
                                fuel pre inputs suf H).
Qed.

(** Three rows against a remote that rejects the credentials: the first
    request is the last. *)
Lemma unauthorized_aborts_the_run_example :
  fst (sync (rows_from 1 3) always_unauthorized 150 10)
  = Thrown (AppError "HUBSPOT_AUTH_ERROR" 401 "Invalid HubSpot API key")
  /\ posts [EvHandleError auth_error; EvClose] = [].
Proof.
  apply (unauthorized_aborts_the_run
           (rows_from 1 3) always_unauthorized 150 10
           three_rows_fetches (map upsert_input three_contacts)
           [EvHandleError auth_error; EvClose]).
  vm_compute. reflexivity.
Defined.

(** ** Egress: the page fetches *)

Lemma ascending_tail x l : ascending (x :: l) = true -> ascending l = true.
Proof.
  destruct l as [|y l]; [reflexivity|]. simpl.
  intros H. apply andb_true_iff in H. apply H.
Qed.

Lemma ascending_skipn n : forall l, ascending l = true -> ascending (skipn n l) = true.
Proof.
  induction n as [|n IH]; intros l H; [exact H|].
  destruct l as [|x l]; [reflexivity|]. simpl.
  apply IH. apply ascending_tail with x. exact H.
Qed.

Lemma ascending_firstn n : forall l, ascending l = true -> ascending (firstn n l) = true.
Proof.
  induction n as [|n IH]; intros l H; [reflexivity|].
  destruct l as [|x l]; [reflexivity|].
  pose proof (IH l (ascending_tail x l H)) as Hrest.
  destruct l as [|y l]; [destruct n; reflexivity|].
  destruct n as [|n]; [reflexivity|].
  simpl in H. apply andb_true_iff in H. destruct H as [Hxy _].
  change (firstn (S (S n)) (x :: y :: l)) with (x :: y :: firstn n l).
  change (firstn (S n) (y :: l)) with (y :: firstn n l) in Hrest.
  simpl. simpl in Hrest. rewrite Hxy. exact Hrest.
Qed.

Lemma ascending_ids_slice n m (table : Table) :
  ascending_ids table = true ->
  ascending_ids (firstn n (skipn m table)) = true.
Proof.
  unfold ascending_ids. intros H.
  rewrite <- firstn_map, <- skipn_map.
  apply ascending_firstn, ascending_skipn, H.
Qed.

Lemma fetch_log_ok_snoc table pageSize l f :
  fetch_log_ok table pageSize l ->
  page_fetch table pageSize (List.length l) f ->
  fetch_log_ok table pageSize (l ++ [f]).
Proof.
  intros Hl Hf k g Hk.
  destruct (Nat.lt_ge_cases k (List.length l)) as [Hlt|Hge].
  - rewrite nth_error_app1 in Hk by exact Hlt. apply Hl, Hk.
  - rewrite nth_error_app2 in Hk by exact Hge.
    destruct (k - List.length l)%nat as [|j] eqn:Hj.
    + simpl in Hk. injection Hk as <-.
      replace k with (List.length l) by lia. exact Hf.
    + simpl in Hk. destruct j; discriminate Hk.
Qed.

Section PageFetches.

Variable table : Table.
Variable remote : Remote.
Variable pageSize : Z.
Variable batchSize : Z.
Variable maxContactsToSync : Z.
Hypothesis pageSize_pos : 1 <= pageSize.

(** The pages fetched so far are exactly [l]. *)
Let fetched (l : list (FindOptions * list BabyNameRow)) (w : World) : Prop :=
  fetches (trace w) = l.

Lemma sendBatchToHubSpot_fetched l fuel batch :
  hoare (fetched l) (sendBatchToHubSpot remote fuel batch) (fun _ w => fetched l w).
Proof.
  induction fuel as [|fuel IH]; intros w Hw.
  - exact Hw.
  - rewrite sendBatchToHubSpot_attempt. cbv zeta.
    assert (H1 : fetches (trace w ++ [EvPost (map upsert_input batch)
                                             (remote (requests w))]) = l).
    { rewrite fetches_app. simpl. rewrite app_nil_r. exact Hw. }
    destruct (remote (requests w)) as [s|status]; [exact H1|].
    destruct (status_is status 401); [exact H1|].
    destruct (status_is status 429); [|exact H1].
    apply IH. unfold fetched. simpl.
    rewrite fetches_app. simpl. rewrite app_nil_r. exact H1.
Qed.

Lemma add_records_fetched l fuel records : forall totalSynced currentBatch,
  hoare (fetched l)
        (add_records remote batchSize maxContactsToSync fuel records
                     totalSynced currentBatch)
        (fun _ w => fetched l w).
Proof.
  induction records as [|record rest IH]; intros totalSynced currentBatch; simpl.
  - apply hoare_ret. trivial.
  - destruct (totalSynced >=? maxContactsToSync); [apply hoare_ret; trivial|].
    destruct (Z_length _ >=? batchSize); [|apply IH].
    apply hoare_bind with (R := fun _ w => fetched l w); [ | | trivial | trivial ].
    + apply sendBatchToHubSpot_fetched.
    + intros _. apply IH.
Qed.

Lemma flush_remaining_fetched l fuel totalSynced currentBatch :
  hoare (fetched l) (flush_remaining remote fuel totalSynced currentBatch)
        (fun _ w => fetched l w).
Proof.
  unfold flush_remaining. destruct (Z_length currentBatch >? 0).
  - apply hoare_bind with (R := fun _ w => fetched l w); [ | | trivial | trivial ].
    + apply sendBatchToHubSpot_fetched.
    + intros _. apply hoare_ret. trivial.
  - apply hoare_ret. trivial.
Qed.

Lemma sync_loop_fetches fuel0 fuel : forall totalSynced currentBatch off l,
  fetch_log_ok table pageSize l ->
  off = pageSize * Z.of_nat (List.length l) ->
  hoare (fetched l)
        (sync_loop table remote pageSize batchSize maxContactsToSync
                   fuel0 fuel totalSynced currentBatch off)
        (fun _ w => fetch_log_ok table pageSize (fetches (trace w))).
Proof.
  induction fuel as [|fuel IH]; intros totalSynced currentBatch off l Hl Hoff; simpl.
  - intros w Hw. simpl. rewrite Hw. exact Hl.
  - destruct (totalSynced <? maxContactsToSync) eqn:Hcap.
    2:{ intros w Hw. simpl. rewrite Hw. exact Hl. }
    apply Z.ltb_lt in Hcap.
    set (fetchLimit := Z.min pageSize (maxContactsToSync - totalSynced)).
    set (opts := {| limit := fetchLimit; offset := off; order := None |}).
    set (l' := l ++ [(opts, findAll table opts)]).
    assert (Hl' : fetch_log_ok table pageSize l').
    { apply fetch_log_ok_snoc; [exact Hl|].
      unfold page_fetch, opts, fetchLimit, findAll; simpl.
      repeat split; try assumption; lia. }
    assert (Hdone : forall w,
               fetched l' w -> fetch_log_ok table pageSize (fetches (trace w))).
    { intros w Hw. rewrite Hw. exact Hl'. }
    apply hoare_bind with (R := fun _ w => fetched l' w).
    + intros w Hw. unfold fetch, fetched, bind, emit, ret. simpl.
      rewrite fetches_app, Hw. reflexivity.
    + intros records. destruct (Z_length records =? 0).
      * eapply hoare_weaken; [apply (flush_remaining_fetched l') | trivial |].
        intros r w. apply Hdone.
      * apply hoare_bind with (R := fun _ w => fetched l' w).
        -- apply add_records_fetched.
        -- intros [total' batch']. destruct (total' >=? maxContactsToSync).
           ++ eapply hoare_weaken; [apply (flush_remaining_fetched l') | trivial |].
              intros r w. apply Hdone.
           ++ apply IH; [exact Hl'|].
              unfold l'. rewrite length_app. simpl. lia.
        -- intros e w. apply Hdone.
        -- intros w. apply Hdone.
    + intros e w. apply Hdone.
    + intros w. apply Hdone.
Qed.

Lemma sync_with_fetches fuel :
  fetch_log_ok table pageSize
    (fetches (trace (snd (sync_with table remote pageSize batchSize
                                    maxContactsToSync fuel initial_world)))).
Proof.
  destruct (sync_with_epilogue table remote pageSize batchSize
              maxContactsToSync fuel initial_world) as [tail [-> [_ [_ Ht]]]].
  cbn [snd trace]. rewrite fetches_app, Ht, app_nil_r.
  apply (sync_loop_fetches fuel fuel 0 [] 0 []).
  - intros k f Hk. destruct k; discriminate Hk.
  - simpl. lia.
  - reflexivity.
Qed.

End PageFetches.

(** C3, as the code has it. The [k]-th page fetch of an egress run asks,
    with no ORDER BY, for at most 5000 rows at offset [5000 * k], and gets
    the rows the table yields at the positions from that offset on; the
    page ends before the offset of the next one, so the pages are disjoint
    slices of the table, fixed by the table alone, and a page ascends by id
    when the table itself does. *)
Theorem page_fetches_are_table_slices :
  forall (table : Table) (remote : Remote) (maxContactsToSync : Z) (fuel : nat)
         (k : nat) (opts : FindOptions) (rows : list BabyNameRow),
    nth_error (fetches (trace (snd (sync table remote maxContactsToSync fuel)))) k
    = Some (opts, rows) ->
    order opts = None
    /\ offset opts = 5000 * Z.of_nat k
    /\ 1 <= limit opts <= 5000
    /\ rows = firstn (Z.to_nat (limit opts)) (skipn (Z.to_nat (offset opts)) table)
    /\ offset opts + Z_length rows <= 5000 * Z.of_nat (S k)
    /\ (ascending_ids table = true -> ascending_ids rows = true).
Proof.
  intros table remote maxContactsToSync fuel k opts rows H.
  pose proof (sync_with_fetches table remote 5000 100 maxContactsToSync
                                ltac:(lia) fuel k (opts, rows) H) as Hpage.
  destruct Hpage as [Ho [Hoff [Hlim Hrows]]].
  repeat split; try assumption; try lia.
  - rewrite Hrows, Hoff. unfold Z_length.
    pose proof (firstn_le_length (Z.to_nat (limit opts))
                  (skipn (Z.to_nat (5000 * Z.of_nat k)) table)) as Hlen.
    lia.
  - intros Hasc. rewrite Hrows. apply ascending_ids_slice, Hasc.
Qed.

(** The first page of a run over three rows. *)
Lemma page_fetches_are_table_slices_example :
  let opts := {| limit := 150; offset := 0; order := None |} in
  order opts = None
  /\ offset opts = 5000 * Z.of_nat 0
  /\ 1 <= limit opts <= 5000
  /\ rows_from 1 3
     = firstn (Z.to_nat (limit opts)) (skipn (Z.to_nat (offset opts)) (rows_from 1 3))
  /\ offset opts + Z_length (rows_from 1 3) <= 5000 * Z.of_nat 1
  /\ (ascending_ids (rows_from 1 3) = true -> ascending_ids (rows_from 1 3) = true).
Proof.
  apply (page_fetches_are_table_slices (rows_from 1 3) always_ok 150 10 0
           {| limit := 150; offset := 0; order := None |} (rows_from 1 3)).
  vm_compute. reflexivity.
Defined.

(** C3 as stated fails: the query carries no ORDER BY, so on a table the
    engine yields newest row first the page comes back in that order,
    where the same query ordered by id would have returned it ascending. *)
Lemma page_not_ordered_by_id :
  fetches (trace (snd (sync newest_first_table always_ok 900 10)))
  = [ ({| limit := 900; offset := 0; order := None |}, newest_first_table);
      ({| limit := 900; offset := 5000; order := None |}, []) ]
  /\ ascending_ids newest_first_table = false
  /\ ascending_ids
       (findAll newest_first_table
                {| limit := 900; offset := 0; order := Some (OrderById true) |})
     = true.
Proof. repeat split. Qed.

(** ** Egress: the delivery cap *)

Lemma delivered_app tr1 tr2 : delivered (tr1 ++ tr2) = delivered tr1 ++ delivered tr2.
Proof. unfold delivered. apply flat_map_app. Qed.

Lemma total_delivered_app tr1 tr2 :
  total_delivered (tr1 ++ tr2) = total_delivered tr1 + total_delivered tr2.
Proof.
  unfold total_delivered. rewrite delivered_app.
  induction (delivered tr1) as [|b l IH]; simpl; [reflexivity | lia].
Qed.

Section CapAccounting.

Variable table : Table.
Variable remote : Remote.
Variable pageSize : Z.
Variable batchSize : Z.
Variable maxContactsToSync : Z.
Hypothesis batchSize_pos : 1 <= batchSize.
Hypothesis cap_pos : 0 < maxContactsToSync.

(** [n] records were delivered so far. *)
Let delivered_is (n : Z) (w : World) : Prop := total_delivered (trace w) = n.

(** A send that returns has delivered the batch once; one that does not
    return has delivered nothing. *)
Lemma sendBatchToHubSpot_delivers n fuel batch :
  hoare (delivered_is n) (sendBatchToHubSpot remote fuel batch)
        (fun r w => match r with
                    | Done _ => delivered_is (n + Z_length batch) w
                    | _ => delivered_is n w
                    end).
Proof.
  induction fuel as [|fuel IH]; intros w Hw.
  - exact Hw.
  - rewrite sendBatchToHubSpot_attempt. cbv zeta.
    destruct (remote (requests w)) as [s|status]; cbn [fst snd].
    + unfold delivered_is in *. cbn [trace].
      rewrite total_delivered_app, Hw.
      unfold total_delivered; simpl. rewrite Z_length_map. lia.
    + assert (H1 : delivered_is n
                     {| requests := S (requests w);
                        trace := trace w ++ [EvPost (map upsert_input batch)
                                                    (Rejected status)] |}).
      { unfold delivered_is in *. cbn [trace].
        rewrite total_delivered_app, Hw.
        unfold total_delivered; simpl. lia. }
      destruct (status_is status 401); [exact H1|].
      destruct (status_is status 429); [|exact H1].
      apply IH. unfold delivered_is in *. cbn [trace] in *.
      rewrite total_delivered_app, H1. unfold total_delivered; simpl. lia.
Qed.

(** The loop variables between two records. *)
Let accounted (r : Outcome (Z * list Contact)) (w : World) : Prop :=
  match r with
  | Done (totalSynced, currentBatch) =>
      delivered_is totalSynced w
      /\ totalSynced < maxContactsToSync + batchSize
      /\ Z_length currentBatch < batchSize
      /\ (maxContactsToSync <= totalSynced -> currentBatch = [])
  | _ => total_delivered (trace w) < maxContactsToSync + batchSize
  end.

Lemma add_records_accounted fuel records : forall totalSynced currentBatch,
  totalSynced < maxContactsToSync + batchSize ->
  Z_length currentBatch < batchSize ->
  (maxContactsToSync <= totalSynced -> currentBatch = []) ->
  hoare (delivered_is totalSynced)
        (add_records remote batchSize maxContactsToSync fuel records
                     totalSynced currentBatch)
        accounted.
Proof.
  induction records as [|record rest IH];
    intros totalSynced currentBatch Hcap Hlen Hempty; simpl.
  - intros w Hw. simpl. repeat split; assumption.
  - destruct (totalSynced >=? maxContactsToSync) eqn:Hreached.
    + intros w Hw. simpl. repeat split; assumption.
    + rewrite Z.geb_leb in Hreached. apply Z.leb_gt in Hreached.
      destruct (Z_length (currentBatch ++ _) >=? batchSize) eqn:Hfull.
      * rewrite Z_length_snoc in *.
        apply hoare_bind
          with (R := fun r w =>
                       match r with
                       | Done _ => delivered_is (totalSynced + (Z_length currentBatch + 1)) w
                       | _ => delivered_is totalSynced w
                       end).
        -- pose proof (sendBatchToHubSpot_delivers totalSynced fuel
                         (currentBatch ++ [formatContactForHubSpot record])) as H.
           rewrite Z_length_snoc in H. exact H.
        -- intros _. apply IH.
           ++ lia.
           ++ unfold Z_length; simpl. lia.
           ++ reflexivity.
        -- intros e w Hw. simpl. unfold delivered_is in Hw. rewrite Hw. lia.
        -- intros w Hw. simpl. unfold delivered_is in Hw. rewrite Hw. lia.
      * rewrite Z.geb_leb in Hfull. apply Z.leb_gt in Hfull.
        apply IH; try assumption. intros Hge. lia.
Qed.

Lemma flush_remaining_accounted fuel totalSynced currentBatch :
  totalSynced + Z_length currentBatch < maxContactsToSync + batchSize ->
  hoare (delivered_is totalSynced)
        (flush_remaining remote fuel totalSynced currentBatch)
        (fun _ w => total_delivered (trace w) < maxContactsToSync + batchSize).
Proof.
  intros Hsum. pose proof (Z_length_nonneg currentBatch) as Hnn.
  unfold flush_remaining. destruct (Z_length currentBatch >? 0).
  - apply hoare_bind
      with (R := fun r w =>
                   match r with
                   | Done _ => delivered_is (totalSynced + Z_length currentBatch) w
                   | _ => delivered_is totalSynced w
                   end).
    + apply sendBatchToHubSpot_delivers.
    + intros _ w Hw. simpl. unfold delivered_is in Hw. rewrite Hw. exact Hsum.
    + intros e w Hw. unfold delivered_is in Hw. rewrite Hw. lia.
    + intros w Hw. unfold delivered_is in Hw. rewrite Hw. lia.
  - intros w Hw. simpl. unfold delivered_is in Hw. rewrite Hw. lia.
Qed.

Lemma sync_loop_accounted fuel0 fuel : forall totalSynced currentBatch off,
  totalSynced < maxContactsToSync + batchSize ->
  Z_length currentBatch < batchSize ->
  (maxContactsToSync <= totalSynced -> currentBatch = []) ->
  hoare (delivered_is totalSynced)
        (sync_loop table remote pageSize batchSize maxContactsToSync
                   fuel0 fuel totalSynced currentBatch off)
        (fun _ w => total_delivered (trace w) < maxContactsToSync + batchSize).
Proof.
  induction fuel as [|fuel IH];
    intros totalSynced currentBatch off Hcap Hlen Hempty; simpl.
  - intros w Hw. simpl. unfold delivered_is in Hw. rewrite Hw. exact Hcap.
  - destruct (totalSynced <? maxContactsToSync) eqn:Hbelow.
    2:{ intros w Hw. simpl. unfold delivered_is in Hw. rewrite Hw. exact Hcap. }
    apply Z.ltb_lt in Hbelow.
    apply hoare_bind with (R := fun _ w => delivered_is totalSynced w).
    + intros w Hw. unfold fetch, bind, emit, ret, delivered_is in *.
      cbn [fst snd trace].
      rewrite total_delivered_app, Hw. unfold total_delivered; simpl. lia.
    + intros records. destruct (Z_length records =? 0).
      * apply flush_remaining_accounted. lia.
      * apply hoare_bind with (R := accounted).
        -- apply add_records_accounted; assumption.
        -- intros [total' batch'] w [Hw [Hcap' [Hlen' Hempty']]]. revert w Hw.
           destruct (total' >=? maxContactsToSync) eqn:Hreached.
           ++ apply flush_remaining_accounted.
              rewrite Z.geb_leb in Hreached. apply Z.leb_le in Hreached.
              rewrite (Hempty' Hreached). unfold Z_length; simpl. lia.
           ++ apply IH; assumption.
        -- intros e w Hw. exact Hw.
        -- intros w Hw. exact Hw.
    + intros e w Hw. unfold delivered_is in Hw. rewrite Hw. exact Hcap.
    + intros w Hw. unfold delivered_is in Hw. rewrite Hw. exact Hcap.
Qed.

End CapAccounting.

(** What the cap does guarantee: at every point of a run the records
    delivered stay below the cap plus one batch. *)
Lemma delivered_below_cap_plus_one_batch :
  forall (table : Table) (remote : Remote) (maxContactsToSync : Z) (fuel : nat),
    0 < maxContactsToSync ->
    total_delivered (trace (snd (sync table remote maxContactsToSync fuel)))
    < maxContactsToSync + 100.
Proof.
  intros table remote maxContactsToSync fuel Hcap. unfold sync.
  destruct (sync_with_epilogue table remote 5000 100 maxContactsToSync fuel
              initial_world) as [tail [-> [_ [Hposts _]]]].
  cbn [snd trace]. rewrite total_delivered_app.
  assert (Htail : total_delivered tail = 0).
  { unfold total_delivered, delivered. clear -Hposts.
    induction tail as [|e tail IH]; [reflexivity|].
    destruct e as [| inputs reply | | |]; simpl in *;
      try (apply IH; exact Hposts); discriminate Hposts. }
  rewrite Htail, Z.add_0_r.
  apply (sync_loop_accounted table remote 5000 100 maxContactsToSync
           ltac:(lia) fuel fuel 0 [] 0);
    try reflexivity; unfold Z_length; simpl; lia.
Qed.

(** *** Runs whose sends all succeed *)

Section AddRecords.

Variable remote : Remote.
Variable batchSize : Z.
Variable maxContactsToSync : Z.

Let contacts (records : list BabyNameRow) : list Contact :=
  map formatContactForHubSpot records.

(** Once the cap is reached the [for] loop leaves at once. *)
Lemma add_records_cap_reached fuel records totalSynced currentBatch :
  maxContactsToSync <= totalSynced ->
  add_records remote batchSize maxContactsToSync fuel records
              totalSynced currentBatch
  = ret (totalSynced, currentBatch).
Proof.
  intros Hcap. destruct records as [|record rest]; simpl; [reflexivity|].
  destruct (Z.geb_spec totalSynced maxContactsToSync); [reflexivity | lia].
Qed.

(** Records that do not fill the batch are only appended to it. *)
Lemma add_records_below_limit fuel records : forall totalSynced currentBatch w,
  totalSynced < maxContactsToSync ->
  Z_length currentBatch + Z_length records < batchSize ->
  add_records remote batchSize maxContactsToSync fuel records
              totalSynced currentBatch w
  = (Done (totalSynced, currentBatch ++ contacts records), w).
Proof.
  induction records as [|record rest IH]; intros totalSynced currentBatch w Hcap Hlen.
  - simpl. rewrite app_nil_r. reflexivity.
  - cbn [add_records].
    destruct (Z.geb_spec totalSynced maxContactsToSync) as [Hge|_]; [lia|].
    assert (Hrest : Z_length (currentBatch ++ [formatContactForHubSpot record])
                    + Z_length rest < batchSize).
    { rewrite Z_length_snoc. unfold Z_length in *. simpl in Hlen. lia. }
    pose proof (Z_length_nonneg rest) as Hnn.
    destruct (Z.geb_spec (Z_length (currentBatch ++ [formatContactForHubSpot record]))
                         batchSize) as [Hge|_]; [lia|].
    rewrite IH by assumption. unfold contacts. simpl.
    rewrite <- app_assoc. reflexivity.
Qed.

(** Records that fill the batch exactly end in one request, here accepted
    by the remote. *)
Lemma add_records_fills_batch fuel status records :
  forall totalSynced currentBatch w,
    totalSynced < maxContactsToSync ->
    records <> [] ->
    Z_length currentBatch + Z_length records = batchSize ->
    remote (requests w) = Resolved status ->
    add_records remote batchSize maxContactsToSync (S fuel) records
                totalSynced currentBatch w
    = (Done (totalSynced + batchSize, []),
       {| requests := S (requests w);
          trace := trace w
                     ++ [EvPost (map upsert_input (currentBatch ++ contacts records))
                                (Resolved status)] |}).
Proof.
  induction records as [|record rest IH];
    intros totalSynced currentBatch w Hcap Hne Hlen Hremote; [contradiction|].
  cbn [add_records].
  destruct (Z.geb_spec totalSynced maxContactsToSync) as [Hge|_]; [lia|].
  assert (Hsnoc : Z_length (currentBatch ++ [formatContactForHubSpot record])
                  + Z_length rest = batchSize).
  { rewrite Z_length_snoc. unfold Z_length in *. simpl in Hlen. lia. }
  destruct rest as [|record' rest'].
  - unfold Z_length at 2 in Hsnoc. simpl in Hsnoc.
    destruct (Z.geb_spec (Z_length (currentBatch ++ [formatContactForHubSpot record]))
                         batchSize) as [_|Hlt]; [|lia].
    unfold bind. rewrite sendBatchToHubSpot_attempt. cbv zeta.
    rewrite Hremote. simpl. unfold ret. repeat f_equal. lia.
  - assert (Hpos : 0 < Z_length (record' :: rest')) by (unfold Z_length; simpl; lia).
    destruct (Z.geb_spec (Z_length (currentBatch ++ [formatContactForHubSpot record]))
                         batchSize) as [Hge|_]; [lia|].
    rewrite IH; try assumption; [|discriminate].
    unfold contacts. simpl. rewrite <- app_assoc. reflexivity.
Qed.

(** The [for] loop over two stretches of records is the loop over the
    first followed by the loop over the second. *)
Lemma add_records_app fuel l1 l2 : forall totalSynced currentBatch w,
  add_records remote batchSize maxContactsToSync fuel (l1 ++ l2)
              totalSynced currentBatch w
  = bind (add_records remote batchSize maxContactsToSync fuel l1
                      totalSynced currentBatch)
         (fun st => add_records remote batchSize maxContactsToSync fuel l2
                                (fst st) (snd st)) w.
Proof.
  induction l1 as [|record rest IH]; intros totalSynced currentBatch w.
  - reflexivity.
  - cbn [app add_records].
    destruct (Z.geb_spec totalSynced maxContactsToSync) as [Hge|Hlt].
    + unfold bind, ret. cbn [fst snd].
      rewrite add_records_cap_reached by exact Hge. reflexivity.
    + destruct (Z_length _ >=? batchSize).
      * rewrite bind_assoc. apply bind_ext. intros _ w'. apply IH.
      * apply IH.
Qed.

End AddRecords.

Lemma firstn_skipn_split {A} (n m : nat) (l : list A) :
  (n <= m)%nat -> firstn m l = firstn n l ++ firstn (m - n) (skipn n l).
Proof.
  intros Hle. rewrite <- (firstn_skipn n (firstn m l)) at 1.
  rewrite firstn_firstn, Nat.min_l by exact Hle.
  rewrite skipn_firstn_comm. reflexivity.
Qed.

Lemma bind_done {A B} (m : Eff A) (k : A -> Eff B) w a w' :
  m w = (Done a, w') -> bind m k w = k a w'.
Proof. intros H. unfold bind. rewrite H. reflexivity. Qed.

Lemma fetch_done table fetchLimit off w :
  let opts := {| limit := fetchLimit; offset := off; order := None |} in
  fetch table fetchLimit off w
  = (Done (findAll table opts),
     {| requests := requests w;
        trace := trace w ++ [EvFetch opts (findAll table opts)] |}).
Proof. reflexivity. Qed.

Lemma flush_remaining_accepted remote fuel status totalSynced currentBatch w :
  currentBatch <> [] ->
  remote (requests w) = Resolved status ->
  flush_remaining remote (S fuel) totalSynced currentBatch w
  = (Done (totalSynced + Z_length currentBatch),
     {| requests := S (requests w);
        trace := trace w ++ [EvPost (map upsert_input currentBatch)
                                    (Resolved status)] |}).
Proof.
  intros Hne Hremote. unfold flush_remaining.
  destruct currentBatch as [|c rest]; [contradiction|].
  change (Z_length (c :: rest) >? 0) with true. cbv iota.
  unfold bind. rewrite sendBatchToHubSpot_attempt. cbv zeta.
  rewrite Hremote. reflexivity.
Qed.

(** With cap 150, every table of 150 to 5000 rows is delivered in two
    requests, the first 100 rows and then the next 50, when the remote
    accepts both. *)
Lemma one_page_run_with_cap_150 :
  forall (table : Table) (remote : Remote) (s0 s1 : Z) (fuel : nat),
    150 <= Z_length table <= 5000 ->
    remote 0%nat = Resolved s0 ->
    remote 1%nat = Resolved s1 ->
    let inputs rows := map upsert_input (map formatContactForHubSpot rows) in
    sync table remote 150 (S (S fuel))
    = (Done 150,
       {| requests := 2;
          trace :=
            [ EvFetch {| limit := 150; offset := 0; order := None |}
                      (firstn 150 table);
              EvPost (inputs (firstn 100 table)) (Resolved s0);
              EvFetch {| limit := 50; offset := 5000; order := None |} [];
              EvPost (inputs (firstn 50 (skipn 100 table))) (Resolved s1);
              EvClose ] |}).
Proof.
  intros table remote s0 s1 fuel Hlen H0 H1 inputs.
  unfold Z_length in Hlen.
  set (page1 := firstn 100 table ++ firstn 50 (skipn 100 table)).
  assert (Hpage1 : findAll table {| limit := 150; offset := 0; order := None |}
                   = page1).
  { unfold page1, findAll. cbn [limit offset order apply_order].
    change (Z.to_nat 150) with 150%nat. change (Z.to_nat 0) with 0%nat.
    cbn [skipn]. exact (firstn_skipn_split 100 150 table ltac:(lia)). }
  assert (Hpage1' : firstn 150 table = page1) by exact Hpage1.
  assert (Hpage2 : findAll table {| limit := 50; offset := 5000; order := None |}
                   = []).
  { unfold findAll. cbn [limit offset order apply_order].
    rewrite skipn_all2 by lia. apply firstn_nil. }
  assert (Hlen1 : List.length (firstn 100 table) = 100%nat)
    by (rewrite firstn_length_le; lia).
  assert (Hlen2 : List.length (firstn 50 (skipn 100 table)) = 50%nat)
    by (rewrite firstn_length_le; [reflexivity | rewrite length_skipn; lia]).
  assert (Hrecords :
            forall w, requests w = 0%nat ->
              add_records remote 100 150 (S (S fuel)) page1 0 [] w
              = (Done (100, map formatContactForHubSpot (firstn 50 (skipn 100 table))),
                 {| requests := 1;
                    trace := trace w ++ [EvPost (inputs (firstn 100 table))
                                                (Resolved s0)] |})).
  { intros w Hw. unfold page1. rewrite add_records_app.
    erewrite bind_done.
    2:{ apply (add_records_fills_batch remote 100 150 (S fuel) s0).
        - lia.
        - intros Hnil. rewrite Hnil in Hlen1. discriminate Hlen1.
        - unfold Z_length. rewrite Hlen1. reflexivity.
        - rewrite Hw. exact H0. }
    cbn [fst snd]. rewrite add_records_below_limit.
    - rewrite Hw. reflexivity.
    - lia.
    - unfold Z_length. rewrite Hlen2. reflexivity. }
  assert (Hloop :
            sync_loop table remote 5000 100 150 (S (S fuel)) (S (S fuel))
                      0 [] 0 initial_world
            = (Done 150,
               {| requests := 2;
                  trace :=
                    [ EvFetch {| limit := 150; offset := 0; order := None |} page1;
                      EvPost (inputs (firstn 100 table)) (Resolved s0);
                      EvFetch {| limit := 50; offset := 5000; order := None |} [];
                      EvPost (inputs (firstn 50 (skipn 100 table))) (Resolved s1) ] |})).
  { cbn [sync_loop]. change (0 <? 150) with true. cbv iota.
    change (Z.min 5000 (150 - 0)) with 150.
    rewrite (bind_done _ _ _ _ _ (fetch_done table 150 0 initial_world)).
    rewrite Hpage1.
    replace (Z_length page1 =? 0) with false
      by (unfold page1, Z_length; rewrite length_app, Hlen1, Hlen2; reflexivity).
    erewrite bind_done; [| apply Hrecords; reflexivity].
    cbn [trace initial_world app].
    change (100 >=? 150) with false. cbv iota.
    change (100 <? 150) with true. cbv iota.
    change (Z.min 5000 (150 - 100)) with 50. change (0 + 5000) with 5000.
    rewrite (bind_done _ _ _ _ _ (fetch_done table 50 5000 _)).
    rewrite Hpage2. change (Z_length (@nil BabyNameRow) =? 0) with true. cbv iota.
    rewrite (flush_remaining_accepted remote (S fuel) s1).
    - cbn [requests trace app]. rewrite Z_length_map. unfold Z_length.
      rewrite Hlen2. reflexivity.
    - intros Hnil. apply (f_equal (@List.length Contact)) in Hnil.
      rewrite length_map, Hlen2 in Hnil. discriminate Hnil.
    - exact H1. }
  unfold sync, sync_with. rewrite Hloop, Hpage1'. reflexivity.
Qed.

(** C1. With cap 150 and a table of 5050 rows the run delivers 200
    records: the 50 contacts left pending after the first page are not
    counted when the second page is sized, so the second request is filled
    to 100 and the total passes the cap. *)
Theorem delivery_cap_exceeded :
  let run := sync (rows_from 1 (Z.to_nat 5050)) always_ok 150 10 in
  fst run = Done 200
  /\ total_delivered (trace (snd run)) = 200
  /\ map (fun f => (limit (fst f), offset (fst f), Z_length (snd f)))
         (fetches (trace (snd run)))
     = [(150, 0, 150); (50, 5000, 50)]
  /\ 150 < total_delivered (trace (snd run)).
Proof. vm_compute. repeat split; reflexivity. Qed.

(** C2. With cap 150, page size 5000 and batch size 100, a table of 5001
    rows (at least 150) makes the run deliver 151 records in two requests
    of 100 and 51 entries, not 150 in requests of 100 and 50. *)
Theorem cap_150_run_on_large_store :
  let run := sync (rows_from 1 (Z.to_nat 5001)) always_ok 150 10 in
  fst run = Done 151
  /\ map (@Z_length UpsertInput) (posts (trace (snd run))) = [100; 51]
  /\ total_delivered (trace (snd run)) = 151.
Proof. vm_compute. repeat split; reflexivity. Qed.

(** ** Egress: more on the delivery count *)

(** X1. Whatever the cap, the table and the remote, the records delivered
    pass the cap by less than one batch: at every point of a run they stay
    below the cap plus 100. *)
Theorem delivery_overshoot_below_one_batch :
  forall (table : Table) (remote : Remote) (maxContactsToSync : Z) (fuel : nat),
    0 < maxContactsToSync ->
    total_delivered (trace (snd (sync table remote maxContactsToSync fuel)))
    < maxContactsToSync + 100.
Proof. exact delivered_below_cap_plus_one_batch. Qed.

(** Cap 150 on a run over three rows. *)
Lemma delivery_overshoot_below_one_batch_example :
  total_delivered (trace (snd (sync (rows_from 1 3) always_ok 150 10))) < 150 + 100.
Proof. apply delivery_overshoot_below_one_batch. lia. Defined.

Lemma total_delivered_without_posts tail : posts tail = [] -> total_delivered tail = 0.
Proof.
  unfold total_delivered, delivered. intros Hposts.
  induction tail as [|e tail IH]; [reflexivity|].
  destruct e as [| inputs reply | | |]; simpl in *;
    try (apply IH; exact Hposts); discriminate Hposts.
Qed.

Section ReturnedCount.

Variable table : Table.
Variable remote : Remote.
Variable pageSize : Z.
Variable batchSize : Z.
Variable maxContactsToSync : Z.

Let counted {A} (n : A -> Z) (r : Outcome A) (w : World) : Prop :=
  match r with
  | Done a => total_delivered (trace w) = n a
  | _ => True
  end.

Lemma sendBatchToHubSpot_counted n fuel batch :
  hoare (fun w => total_delivered (trace w) = n)
        (sendBatchToHubSpot remote fuel batch)
        (counted (fun _ => n + Z_length batch)).
Proof.
  induction fuel as [|fuel IH]; intros w Hw; [exact I|].
  rewrite sendBatchToHubSpot_attempt. cbv zeta.
  destruct (remote (requests w)) as [s|status]; cbn [fst snd].
  - unfold counted. cbn [trace]. rewrite total_delivered_app, Hw.
    unfold total_delivered; simpl. rewrite Z_length_map. lia.
  - destruct (status_is status 401); [exact I|].
    destruct (status_is status 429); [|exact I].
    apply IH. cbn [trace]. rewrite !total_delivered_app, Hw.
    unfold total_delivered; simpl. lia.
Qed.

Lemma add_records_counted fuel records : forall totalSynced currentBatch,
  hoare (fun w => total_delivered (trace w) = totalSynced)
        (add_records remote batchSize maxContactsToSync fuel records
                     totalSynced currentBatch)
        (counted fst).
Proof.
  induction records as [|record rest IH]; intros totalSynced currentBatch; simpl.
  - intros w Hw. exact Hw.
  - destruct (totalSynced >=? maxContactsToSync); [intros w Hw; exact Hw|].
    destruct (Z_length _ >=? batchSize); [|apply IH].
    eapply hoare_bind.
    + apply sendBatchToHubSpot_counted.
    + intros u. apply IH.
    + intros e w _. exact I.
    + intros w _. exact I.
Qed.

Lemma flush_remaining_counted fuel totalSynced currentBatch :
  hoare (fun w => total_delivered (trace w) = totalSynced)
        (flush_remaining remote fuel totalSynced currentBatch)
        (counted (fun n => n)).
Proof.
  unfold flush_remaining. destruct (Z_length currentBatch >? 0).
  - eapply hoare_bind.
    + apply sendBatchToHubSpot_counted.
    + intros u w Hw. exact Hw.
    + intros e w _. exact I.
    + intros w _. exact I.
  - intros w Hw. exact Hw.
Qed.

Lemma sync_loop_counted fuel0 fuel : forall totalSynced currentBatch off,
  hoare (fun w => total_delivered (trace w) = totalSynced)
        (sync_loop table remote pageSize batchSize maxContactsToSync
                   fuel0 fuel totalSynced currentBatch off)
        (counted (fun n => n)).
Proof.
  induction fuel as [|fuel IH]; intros totalSynced currentBatch off; simpl.
  - intros w _. exact I.
  - destruct (totalSynced <? maxContactsToSync); [|intros w Hw; exact Hw].
    apply hoare_bind
      with (R := fun _ w => total_delivered (trace w) = totalSynced).
    + intros w Hw. unfold fetch, bind, emit, ret. cbn [fst snd trace].
      rewrite total_delivered_app, Hw. unfold total_delivered; simpl. lia.
    + intros records. destruct (Z_length records =? 0).
      * apply flush_remaining_counted.
      * apply hoare_bind with (R := counted fst).
        -- apply add_records_counted.
        -- intros [total' batch']. cbn [counted fst].
           destruct (total' >=? maxContactsToSync).
           ++ apply flush_remaining_counted.
           ++ apply IH.
        -- intros e w _. exact I.
        -- intros w _. exact I.
    + intros e w _. exact I.
    + intros w _. exact I.
Qed.

End ReturnedCount.

(** X2. The number a completed run returns is the number of records the
    remote accepted during that run. *)
Theorem returned_count_is_delivered_count :
  forall (table : Table) (remote : Remote) (maxContactsToSync : Z) (fuel : nat)
         (n : Z),
    fst (sync table remote maxContactsToSync fuel) = Done n ->
    total_delivered (trace (snd (sync table remote maxContactsToSync fuel))) = n
    /\ 0 <= n.
Proof.
  intros table remote maxContactsToSync fuel n. unfold sync.
  destruct (sync_with_epilogue table remote 5000 100 maxContactsToSync fuel
              initial_world) as [tail [-> [_ [Hposts _]]]].
  cbn [fst snd trace]. intros Hdone.
  pose proof (sync_loop_counted table remote 5000 100 maxContactsToSync
                fuel fuel 0 [] 0 initial_world eq_refl) as H.
  rewrite Hdone in H. simpl in H.
  pose proof (total_delivered_without_posts tail Hposts) as Htail.
  rewrite total_delivered_app, Htail, Z.add_0_r.
  split; [exact H|]. rewrite <- H.
  unfold total_delivered.
  induction (delivered _) as [|b l IH]; simpl; [lia|].
  pose proof (Z_length_nonneg b). lia.
Qed.

(** A run over 150 rows returns 150. *)
Lemma returned_count_is_delivered_count_example :
  total_delivered (trace (snd (sync (rows_from 1 150) always_ok 150 10))) = 150
  /\ 0 <= 150.
Proof.
  apply (returned_count_is_delivered_count (rows_from 1 150) always_ok 150 10 150).
  vm_compute. reflexivity.
Defined.

Lemma next_batch_within_cap (batchSize totalSynced cap : Z) :
  0 < batchSize ->
  (batchSize | totalSynced) -> (batchSize | cap) ->
  totalSynced < cap -> totalSynced + batchSize <= cap.
Proof.
  intros Hpos [a Ha] [c Hc] Hlt. subst.
  apply Z.mul_lt_mono_pos_r in Hlt; [|exact Hpos].
  replace (a * batchSize + batchSize) with ((a + 1) * batchSize) by ring.
  apply Z.mul_le_mono_nonneg_r; lia.
Qed.

Section AlignedCap.

Variable table : Table.
Variable remote : Remote.
Variable pageSize : Z.
Variable batchSize : Z.
Variable maxContactsToSync : Z.
Hypothesis batchSize_pos : 1 <= batchSize.
Hypothesis cap_aligned : (batchSize | maxContactsToSync).

(** A send leaves the delivery count alone unless it returns. *)
Lemma sendBatchToHubSpot_count n fuel batch :
  hoare (fun w => total_delivered (trace w) = n)
        (sendBatchToHubSpot remote fuel batch)
        (fun r w => total_delivered (trace w)
                    = match r with Done _ => n + Z_length batch | _ => n end).
Proof.
  induction fuel as [|fuel IH]; intros w Hw; [exact Hw|].
  rewrite sendBatchToHubSpot_attempt. cbv zeta.
  assert (Hrej : forall status,
             total_delivered (trace w ++ [EvPost (map upsert_input batch)
                                                 (Rejected status)]) = n).
  { intros status. rewrite total_delivered_app, Hw.
    unfold total_delivered; simpl. lia. }
  destruct (remote (requests w)) as [s|status]; cbn [fst snd trace].
  - rewrite total_delivered_app, Hw.
    unfold total_delivered; simpl. rewrite Z_length_map. lia.
  - destruct (status_is status 401); [apply Hrej|].
    destruct (status_is status 429); [|apply Hrej].
    apply IH. cbn [trace]. rewrite total_delivered_app, Hrej.
    unfold total_delivered; simpl. lia.
Qed.

(** The loop variables between two records when the cap is a multiple of
    the batch size: the count is a multiple too and within the cap. *)
Let aligned (r : Outcome (Z * list Contact)) (w : World) : Prop :=
  match r with
  | Done (totalSynced, currentBatch) =>
      total_delivered (trace w) = totalSynced
      /\ (batchSize | totalSynced)
      /\ totalSynced <= maxContactsToSync
      /\ Z_length currentBatch < batchSize
      /\ (maxContactsToSync <= totalSynced -> currentBatch = [])
  | _ => total_delivered (trace w) <= maxContactsToSync
  end.

Lemma add_records_aligned fuel records : forall totalSynced currentBatch,
  (batchSize | totalSynced) ->
  totalSynced <= maxContactsToSync ->
  Z_length currentBatch < batchSize ->
  (maxContactsToSync <= totalSynced -> currentBatch = []) ->
  hoare (fun w => total_delivered (trace w) = totalSynced)
        (add_records remote batchSize maxContactsToSync fuel records
                     totalSynced currentBatch)
        aligned.
Proof.
  induction records as [|record rest IH];
    intros totalSynced currentBatch Hdiv Hcap Hlen Hempty; simpl.
  - intros w Hw. unfold aligned. repeat split; assumption.
  - destruct (Z.geb_spec totalSynced maxContactsToSync) as [Hge|Hlt].
    + intros w Hw. unfold aligned. repeat split; assumption.
    + pose proof (next_batch_within_cap batchSize totalSynced maxContactsToSync
                    ltac:(lia) Hdiv cap_aligned Hlt) as Hnext.
      destruct (Z.geb_spec (Z_length (currentBatch ++ [formatContactForHubSpot record]))
                           batchSize) as [Hfull|Hroom].
      * rewrite Z_length_snoc in Hfull.
        assert (Hexact : Z_length (currentBatch ++ [formatContactForHubSpot record])
                         = batchSize) by (rewrite Z_length_snoc; lia).
        eapply hoare_bind.
        -- apply sendBatchToHubSpot_count.
        -- intros u. cbv beta iota. rewrite Hexact. apply IH.
           ++ apply Z.divide_add_r; [exact Hdiv | apply Z.divide_refl].
           ++ exact Hnext.
           ++ unfold Z_length; simpl. lia.
           ++ reflexivity.
        -- intros e w Hw. unfold aligned. cbv beta iota in Hw. lia.
        -- intros w Hw. unfold aligned. cbv beta iota in Hw. lia.
      * apply IH; try assumption. intros Hge. lia.
Qed.

Lemma flush_remaining_aligned fuel totalSynced currentBatch :
  totalSynced + Z_length currentBatch <= maxContactsToSync ->
  hoare (fun w => total_delivered (trace w) = totalSynced)
        (flush_remaining remote fuel totalSynced currentBatch)
        (fun _ w => total_delivered (trace w) <= maxContactsToSync).
Proof.
  intros Hsum. pose proof (Z_length_nonneg currentBatch) as Hnn.
  unfold flush_remaining. destruct (Z_length currentBatch >? 0).
  - eapply hoare_bind.
    + apply sendBatchToHubSpot_count.
    + intros u w Hw. simpl in *. lia.
    + intros e w Hw. simpl in *. lia.
    + intros w Hw. simpl in *. lia.
  - intros w Hw. simpl. lia.
Qed.

Lemma sync_loop_aligned fuel0 fuel : forall totalSynced currentBatch off,
  (batchSize | totalSynced) ->
  totalSynced <= maxContactsToSync ->
  Z_length currentBatch < batchSize ->
  (maxContactsToSync <= totalSynced -> currentBatch = []) ->
  hoare (fun w => total_delivered (trace w) = totalSynced)
        (sync_loop table remote pageSize batchSize maxContactsToSync
                   fuel0 fuel totalSynced currentBatch off)
        (fun _ w => total_delivered (trace w) <= maxContactsToSync).
Proof.
  induction fuel as [|fuel IH];
    intros totalSynced currentBatch off Hdiv Hcap Hlen Hempty; simpl.
  - intros w Hw. simpl. lia.
  - destruct (Z.ltb_spec totalSynced maxContactsToSync) as [Hlt|Hge];
      [|intros w Hw; simpl; lia].
    pose proof (next_batch_within_cap batchSize totalSynced maxContactsToSync
                  ltac:(lia) Hdiv cap_aligned Hlt) as Hnext.
    apply hoare_bind
      with (R := fun _ w => total_delivered (trace w) = totalSynced).
    + intros w Hw. unfold fetch, bind, emit, ret. cbn [fst snd trace].
      rewrite total_delivered_app, Hw. unfold total_delivered; simpl. lia.
    + intros records. destruct (Z_length records =? 0).
      * apply flush_remaining_aligned. lia.
      * apply hoare_bind with (R := aligned).
        -- apply add_records_aligned; assumption.
        -- intros [total' batch'] w [Hw [Hdiv' [Hcap' [Hlen' Hempty']]]].
           revert w Hw.
           destruct (Z.geb_spec total' maxContactsToSync) as [Hge|Hlt'].
           ++ apply flush_remaining_aligned.
              rewrite (Hempty' Hge). unfold Z_length; simpl. lia.
           ++ apply IH; assumption.
        -- intros e w Hw. exact Hw.
        -- intros w Hw. exact Hw.
    + intros e w Hw. simpl in *. lia.
    + intros w Hw. simpl in *. lia.
Qed.

End AlignedCap.

(** X3. When the cap is a multiple of 100 (as the default 900 is), the
    records delivered never exceed it, at any point of any run. *)
Theorem delivered_within_cap_multiple_of_100 :
  forall (table : Table) (remote : Remote) (maxContactsToSync : Z) (fuel : nat),
    0 <= maxContactsToSync ->
    (100 | maxContactsToSync) ->
    total_delivered (trace (snd (sync table remote maxContactsToSync fuel)))
    <= maxContactsToSync.
Proof.
  intros table remote maxContactsToSync fuel Hcap Hdiv. unfold sync.
  destruct (sync_with_epilogue table remote 5000 100 maxContactsToSync fuel
              initial_world) as [tail [-> [_ [Hposts _]]]].
  cbn [snd trace]. rewrite total_delivered_app.
  pose proof (total_delivered_without_posts tail Hposts) as Htail.
  rewrite Htail, Z.add_0_r.
  apply (sync_loop_aligned table remote 5000 100 maxContactsToSync
           ltac:(lia) Hdiv fuel fuel 0 [] 0);
    try reflexivity; try (unfold Z_length; simpl; lia).
  apply Z.divide_0_r.
Qed.

(** The default cap, 900, on a run over three rows. *)
Lemma delivered_within_cap_multiple_of_100_example :
  total_delivered (trace (snd (sync (rows_from 1 3) always_ok 900 10))) <= 900.
Proof.
  apply delivered_within_cap_multiple_of_100; [lia | exists 9; reflexivity].
Defined.

(** ** Egress: termination *)

Section Termination.

Variable table : Table.
Variable remote : Remote.
Variable pageSize : Z.
Variable batchSize : Z.
Variable maxContactsToSync : Z.
Hypothesis pageSize_pos : 1 <= pageSize.
Hypothesis never_throttled : forall k, remote k <> Rejected (Some 429).

Let ends {A} (r : Outcome A) (w : World) : Prop := r <> Diverged.

Lemma bind_ends {A B} (P : World -> Prop) (m : Eff A) (k : A -> Eff B)
      (R : A -> World -> Prop) :
  hoare P m (fun r w => r <> Diverged
                        /\ match r with Done a => R a w | _ => True end) ->
  (forall a, hoare (R a) (k a) ends) ->
  hoare P (bind m k) ends.
Proof.
  intros Hm Hk. eapply hoare_bind.
  - exact Hm.
  - intros a w [_ Ha]. apply Hk, Ha.
  - intros e w _. discriminate.
  - intros w [H _]. exfalso. apply H. reflexivity.
Qed.

Lemma sendBatchToHubSpot_ends fuel batch :
  hoare (fun _ => True) (sendBatchToHubSpot remote (S fuel) batch) ends.
Proof.
  intros w _. rewrite sendBatchToHubSpot_attempt. cbv zeta.
  destruct (remote (requests w)) as [s|status] eqn:Hr; [discriminate|].
  destruct (status_is status 401); [discriminate|].
  destruct (status_is status 429) eqn:H429; [|discriminate].
  exfalso. apply status_is_true in H429. subst status.
  apply (never_throttled _ Hr).
Qed.

Lemma add_records_ends fuel records : forall totalSynced currentBatch,
  hoare (fun _ => True)
        (add_records remote batchSize maxContactsToSync (S fuel) records
                     totalSynced currentBatch)
        ends.
Proof.
  induction records as [|record rest IH]; intros totalSynced currentBatch;
    cbn [add_records].
  - intros w _. discriminate.
  - destruct (totalSynced >=? maxContactsToSync); [intros w _; discriminate|].
    destruct (Z_length _ >=? batchSize); [|apply IH].
    apply bind_ends with (R := fun _ _ => True).
    + intros w Hw. split; [apply (sendBatchToHubSpot_ends fuel _ w Hw)|].
      destruct (fst _); exact I.
    + intros u. apply IH.
Qed.

Lemma flush_remaining_ends fuel totalSynced currentBatch :
  hoare (fun _ => True)
        (flush_remaining remote (S fuel) totalSynced currentBatch) ends.
Proof.
  unfold flush_remaining. destruct (Z_length currentBatch >? 0).
  - apply bind_ends with (R := fun _ _ => True).
    + intros w Hw. split; [apply (sendBatchToHubSpot_ends fuel _ w Hw)|].
      destruct (fst _); exact I.
    + intros u w _. discriminate.
  - intros w _. discriminate.
Qed.

(** A page that is not empty starts inside the table. *)
Lemma nonempty_page_inside fetchLimit off :
  0 <= off ->
  Z_length (findAll table {| limit := fetchLimit; offset := off; order := None |})
  <> 0 ->
  off < Z_length table.
Proof.
  intros Hoff Hne. unfold findAll in Hne. cbn [limit offset order apply_order] in Hne.
  destruct (Z.lt_ge_cases off (Z_length table)) as [Hlt|Hge]; [exact Hlt|].
  exfalso. apply Hne. unfold Z_length in *.
  rewrite skipn_all2 by lia. rewrite firstn_nil. reflexivity.
Qed.

Lemma sync_loop_ends fuel0 fuel : forall totalSynced currentBatch off,
  0 <= off ->
  Z.max 0 (Z_length table - off) < Z.of_nat fuel ->
  hoare (fun _ => True)
        (sync_loop table remote pageSize batchSize maxContactsToSync
                   (S fuel0) fuel totalSynced currentBatch off)
        ends.
Proof.
  induction fuel as [|fuel IH]; intros totalSynced currentBatch off Hoff Hfuel.
  - simpl in Hfuel. lia.
  - cbn [sync_loop].
    destruct (totalSynced <? maxContactsToSync); [|intros w _; discriminate].
    set (fetchLimit := Z.min pageSize (maxContactsToSync - totalSynced)).
    apply bind_ends
      with (R := fun records _ =>
                   records = findAll table {| limit := fetchLimit; offset := off;
                                               order := None |}).
    + intros w _. split; [discriminate | reflexivity].
    + intros records. destruct (Z.eqb_spec (Z_length records) 0) as [_|Hne].
      * intros w _. apply flush_remaining_ends. exact I.
      * intros w Hrecords.
        assert (Hin : off < Z_length table).
        { rewrite Hrecords in Hne. apply (nonempty_page_inside _ _ Hoff Hne). }
        refine (bind_ends (fun _ => True) _ _ (fun _ _ => True) _ _ w I).
        -- intros w' Hw'. split; [apply (add_records_ends fuel0 _ _ _ w' Hw')|].
           destruct (fst _); exact I.
        -- intros [total' batch']. destruct (total' >=? maxContactsToSync).
           ++ apply flush_remaining_ends.
           ++ apply IH; lia.
Qed.

End Termination.

(** X4. Against a remote that never answers 429, a run given more steps
    than the table has rows comes to an end: it returns a count or throws,
    it does not go on for ever. *)
Theorem sync_ends_when_never_throttled :
  forall (table : Table) (remote : Remote) (maxContactsToSync : Z) (fuel : nat),
    (forall k, remote k <> Rejected (Some 429)) ->
    (List.length table < fuel)%nat ->
    fst (sync table remote maxContactsToSync fuel) <> Diverged.
Proof.
  intros table remote maxContactsToSync fuel Hremote Hfuel. unfold sync.
  destruct (sync_with_epilogue table remote 5000 100 maxContactsToSync fuel
              initial_world) as [tail [-> _]].
  cbn [fst]. destruct fuel as [|fuel0]; [lia|].
  apply (sync_loop_ends table remote 5000 100 maxContactsToSync
           ltac:(lia) Hremote fuel0 (S fuel0) 0 [] 0);
    [lia | unfold Z_length; lia | exact I].
Qed.

(** Three rows, a remote that accepts everything, ten steps. *)
Lemma sync_ends_when_never_throttled_example :
  fst (sync (rows_from 1 3) always_ok 150 10) <> Diverged.
Proof.
  apply sync_ends_when_never_throttled; [intros k; discriminate | simpl; lia].
Defined.

(** ** Egress: rejections that are not retried *)

Lemma status_is_false status code : status_is status code = false <-> status <> Some code.
Proof.
  destruct status as [s|]; simpl.
  - rewrite Z.eqb_neq. split; [intros H Heq; injection Heq; exact H | intros H Heq; apply H; now subst].
  - split; [discriminate | reflexivity].
Qed.

Lemma never_fatal_snoc tr e :
  never_fatal tr -> fatal_reply e = false -> never_fatal (tr ++ [e]).
Proof.
  intros Htr He. apply Forall_app. split; [exact Htr | constructor; [exact He | constructor]].
Qed.

(** A trace that ends in its only fatal rejection, followed by events that
    are no requests, can be cut at a fatal rejection in one way only. *)
Lemma cut_at_fatal tail x : forall pre0 pre y suf,
  never_fatal pre0 ->
  never_fatal tail ->
  fatal_reply y = true ->
  (pre0 ++ [x]) ++ tail = pre ++ y :: suf ->
  y = x /\ suf = tail.
Proof.
  induction pre0 as [|a pre0 IH]; intros pre y suf Hpre0 Htail Hy Heq.
  - destruct pre as [|b pre]; simpl in Heq.
    + injection Heq as Hx Hsuf. now subst.
    + injection Heq as _ Hrest. exfalso.
      rewrite Hrest in Htail. apply Forall_app in Htail.
      destruct Htail as [_ Htail]. inversion Htail as [|? ? Hf _].
      rewrite Hy in Hf. discriminate Hf.
  - inversion Hpre0 as [|? ? Ha Hpre0']; subst.
    destruct pre as [|b pre]; simpl in Heq.
    + injection Heq as Hab _. subst a. rewrite Hy in Ha. discriminate Ha.
    + injection Heq as _ Hrest. apply (IH pre y suf Hpre0' Htail Hy Hrest).
Qed.

Section FatalRejections.

Variable table : Table.
Variable remote : Remote.
Variable pageSize : Z.
Variable batchSize : Z.
Variable maxContactsToSync : Z.

Let unharmed (w : World) : Prop := never_fatal (trace w).

Lemma bind_stops_on_fatal {A B} (m : Eff A) (k : A -> Eff B) :
  hoare unharmed m stops_on_fatal ->
  (forall a, hoare unharmed (k a) stops_on_fatal) ->
  hoare unharmed (bind m k) stops_on_fatal.
Proof.
  intros Hm Hk. apply hoare_bind with (R := stops_on_fatal).
  - exact Hm.
  - intros a w [H|[pre [inputs [status [_ [_ [_ H]]]]]]];
      [apply Hk, H | discriminate H].
  - intros e w [H|[pre [inputs [status [Htr [Hpre [Hs H]]]]]]]; [left; exact H|].
    right. exists pre, inputs, status. repeat split; try assumption.
    injection H as ->. reflexivity.
  - intros w [H|[pre [inputs [status [_ [_ [_ H]]]]]]];
      [left; exact H | discriminate H].
Qed.

Lemma sendBatchToHubSpot_stops_on_fatal fuel batch :
  hoare unharmed (sendBatchToHubSpot remote fuel batch) stops_on_fatal.
Proof.
  induction fuel as [|fuel IH]; intros w Hw.
  - left. exact Hw.
  - rewrite sendBatchToHubSpot_attempt. cbv zeta.
    destruct (remote (requests w)) as [s|status] eqn:Hr.
    + left. simpl. apply never_fatal_snoc; [exact Hw | reflexivity].
    + destruct (status_is status 429) eqn:H429.
      * assert (H401 : status_is status 401 = false).
        { apply status_is_true in H429. subst status. reflexivity. }
        rewrite H401. apply IH. unfold unharmed. simpl.
        apply never_fatal_snoc; [|reflexivity].
        apply never_fatal_snoc; [exact Hw|]. simpl. rewrite H429. reflexivity.
      * right. exists (trace w), (map upsert_input batch), status.
        unfold error_for.
        destruct (status_is status 401); repeat split; assumption.
Qed.

Lemma add_records_stops_on_fatal fuel records : forall totalSynced currentBatch,
  hoare unharmed
        (add_records remote batchSize maxContactsToSync fuel records
                     totalSynced currentBatch)
        stops_on_fatal.
Proof.
  induction records as [|record rest IH]; intros totalSynced currentBatch; simpl.
  - intros w Hw. left. exact Hw.
  - destruct (totalSynced >=? maxContactsToSync); [intros w Hw; left; exact Hw|].
    destruct (Z_length _ >=? batchSize); [|apply IH].
    apply bind_stops_on_fatal.
    + apply sendBatchToHubSpot_stops_on_fatal.
    + intros u. apply IH.
Qed.

Lemma flush_remaining_stops_on_fatal fuel totalSynced currentBatch :
  hoare unharmed (flush_remaining remote fuel totalSynced currentBatch)
        stops_on_fatal.
Proof.
  unfold flush_remaining. destruct (Z_length currentBatch >? 0).
  - apply bind_stops_on_fatal.
    + apply sendBatchToHubSpot_stops_on_fatal.
    + intros u w Hw. left. exact Hw.
  - intros w Hw. left. exact Hw.
Qed.

Lemma sync_loop_stops_on_fatal fuel0 fuel : forall totalSynced currentBatch off,
  hoare unharmed
        (sync_loop table remote pageSize batchSize maxContactsToSync
                   fuel0 fuel totalSynced currentBatch off)
        stops_on_fatal.
Proof.
  induction fuel as [|fuel IH]; intros totalSynced currentBatch off; simpl.
  - intros w Hw. left. exact Hw.
  - destruct (totalSynced <? maxContactsToSync); [|intros w Hw; left; exact Hw].
    apply bind_stops_on_fatal.
    + intros w Hw. left. unfold fetch, bind, emit, ret. cbn [fst snd trace].
      apply never_fatal_snoc; [exact Hw | reflexivity].
    + intros records. destruct (Z_length records =? 0).
      * apply flush_remaining_stops_on_fatal.
      * apply bind_stops_on_fatal.
        -- apply add_records_stops_on_fatal.
        -- intros [total' batch']. destruct (total' >=? maxContactsToSync).
           ++ apply flush_remaining_stops_on_fatal.
           ++ apply IH.
Qed.

End FatalRejections.

Lemma never_fatal_without_posts tail : posts tail = [] -> never_fatal tail.
Proof.
  induction tail as [|e tail IH]; intros H; [constructor|].
  destruct e as [| inputs reply | | |]; simpl in H;
    try (constructor; [reflexivity | apply IH, H]).
  discriminate H.
Qed.

(** X5. A request rejected with any status other than 429, or with no
    response at all, is the last request of the run: it is not sent again,
    nothing is sent after it, and the run throws the authentication error
    for a 401 and the request's own error otherwise. *)
Theorem rejection_other_than_429_ends_the_run :
  forall (table : Table) (remote : Remote) (maxContactsToSync : Z) (fuel : nat)
         (pre : list Event) (inputs : list UpsertInput) (status : option Z)
         (suf : list Event),
    trace (snd (sync table remote maxContactsToSync fuel))
    = pre ++ EvPost inputs (Rejected status) :: suf ->
    status <> Some 429 ->
    fst (sync table remote maxContactsToSync fuel)
    = Thrown (if status_is status 401 then auth_error else RequestError status)
    /\ posts suf = [].
Proof.
  intros table remote maxContactsToSync fuel pre inputs status suf. unfold sync.
  destruct (sync_with_epilogue table remote 5000 100 maxContactsToSync fuel
              initial_world) as [tail [-> [_ [Hposts _]]]].
  cbn [fst snd trace]. intros Heq Hstatus.
  apply status_is_false in Hstatus.
  pose proof (never_fatal_without_posts tail Hposts) as Htail.
  pose proof (sync_loop_stops_on_fatal table remote 5000 100 maxContactsToSync
                fuel fuel 0 [] 0 initial_world ltac:(constructor)) as Hloop.
  assert (Hy : fatal_reply (EvPost inputs (Rejected status)) = true)
    by (simpl; rewrite Hstatus; reflexivity).
  destruct Hloop as [Hnever|[pre0 [inputs0 [status0 [Htr [Hpre0 [Hs0 Hr]]]]]]].
  - exfalso.
    assert (Hall : never_fatal (pre ++ EvPost inputs (Rejected status) :: suf)).
    { rewrite <- Heq. apply Forall_app. split; assumption. }
    apply Forall_app in Hall. destruct Hall as [_ Hall].
    inversion Hall as [|? ? Hf _]. rewrite Hy in Hf. discriminate Hf.
  - rewrite Htr in Heq.
    destruct (cut_at_fatal tail _ pre0 pre _ suf Hpre0 Htail Hy Heq) as [Hsame Hsuf].
    injection Hsame as _ Hst. subst status0 suf.
    split; [exact Hr | exact Hposts].
Qed.

(** A remote that answers the first request with 400. *)
Lemma rejection_other_than_429_ends_the_run_example :
  fst (sync (rows_from 1 3) (fun _ => Rejected (Some 400)) 150 10)
  = Thrown (RequestError (Some 400))
  /\ posts [EvHandleError (RequestError (Some 400)); EvClose] = [].
Proof.
  apply (rejection_other_than_429_ends_the_run
           (rows_from 1 3) (fun _ => Rejected (Some 400)) 150 10
           three_rows_fetches (map upsert_input three_contacts) (Some 400)
           [EvHandleError (RequestError (Some 400)); EvClose]).
  - vm_compute. reflexivity.
  - discriminate.
Defined.

(** ** Egress: what is delivered, and in which order *)

Lemma sent_entries_app tr1 tr2 :
  sent_entries (tr1 ++ tr2) = sent_entries tr1 ++ sent_entries tr2.
Proof. unfold sent_entries. rewrite delivered_app, concat_app. reflexivity. Qed.

Lemma fetched_rows_app tr1 tr2 :
  fetched_rows (tr1 ++ tr2) = fetched_rows tr1 ++ fetched_rows tr2.
Proof.
  unfold fetched_rows. rewrite fetches_app, map_app, concat_app. reflexivity.
Qed.

Lemma entries_of_contacts records :
  map upsert_input (map formatContactForHubSpot records) = map entry_of records.
Proof. rewrite map_map. reflexivity. Qed.

Section DeliveryOrder.

Variable table : Table.
Variable remote : Remote.
Variable pageSize : Z.
Variable batchSize : Z.
Variable maxContactsToSync : Z.

Let fetched (w : World) : list UpsertInput := map entry_of (fetched_rows (trace w)).
Let sent (w : World) : list UpsertInput := sent_entries (trace w).

(** A send fetches nothing, and delivers the batch if it returns. *)
Lemma sendBatchToHubSpot_sent fuel batch : forall w,
  let r := sendBatchToHubSpot remote fuel batch w in
  fetched (snd r) = fetched w
  /\ sent (snd r) = match fst r with
                    | Done _ => sent w ++ map upsert_input batch
                    | _ => sent w
                    end.
Proof.
  induction fuel as [|fuel IH]; intros w; [split; reflexivity|].
  cbv zeta. rewrite sendBatchToHubSpot_attempt. cbv zeta.
  assert (Hf : forall reply,
             fetched {| requests := S (requests w);
                        trace := trace w ++ [EvPost (map upsert_input batch) reply] |}
             = fetched w).
  { intros reply. unfold fetched. cbn [trace].
    rewrite fetched_rows_app. unfold fetched_rows at 2. simpl.
    rewrite app_nil_r. reflexivity. }
  assert (Hs : forall status,
             sent {| requests := S (requests w);
                     trace := trace w ++ [EvPost (map upsert_input batch)
                                                 (Rejected status)] |}
             = sent w).
  { intros status. unfold sent. cbn [trace].
    rewrite sent_entries_app. unfold sent_entries at 2. simpl.
    rewrite app_nil_r. reflexivity. }
  destruct (remote (requests w)) as [s|status]; cbn [fst snd].
  - split; [apply Hf|]. unfold sent. cbn [trace].
    rewrite sent_entries_app. unfold sent_entries at 2. simpl.
    rewrite app_nil_r. reflexivity.
  - destruct (status_is status 401); [split; [apply Hf | apply Hs]|].
    destruct (status_is status 429); [|split; [apply Hf | apply Hs]].
    match goal with
    | |- context [sendBatchToHubSpot remote fuel batch ?w1] =>
        specialize (IH w1); cbv zeta in IH; destruct IH as [IHf IHs];
        assert (Hf1 : fetched w1 = fetched w);
        [| assert (Hs1 : sent w1 = sent w) ]
    end.
    + unfold fetched. cbn [trace]. rewrite fetched_rows_app.
      unfold fetched_rows at 2. simpl. rewrite app_nil_r. apply Hf.
    + unfold sent. cbn [trace]. rewrite sent_entries_app.
      unfold sent_entries at 2. simpl. rewrite app_nil_r. apply Hs.
    + rewrite IHf, IHs, Hf1, Hs1. split; reflexivity.
Qed.

(** What the [for] loop keeps: everything fetched is what was delivered,
    then what is pending, then what is still to come. *)
Lemma add_records_sent fuel records : forall totalSynced currentBatch w,
  fetched w = sent w ++ map upsert_input currentBatch ++ map entry_of records ->
  let r := add_records remote batchSize maxContactsToSync fuel records
                       totalSynced currentBatch w in
  match fst r with
  | Done (totalSynced', currentBatch') =>
      exists rest,
        fetched (snd r) = sent (snd r) ++ map upsert_input currentBatch' ++ rest
        /\ (totalSynced' < maxContactsToSync -> rest = [])
  | _ => exists rest, fetched (snd r) = sent (snd r) ++ rest
  end.
Proof.
  induction records as [|record rest IH]; intros totalSynced currentBatch w Hw;
    cbn [add_records].
  - simpl. exists []. split; [exact Hw | reflexivity].
  - destruct (Z.geb_spec totalSynced maxContactsToSync) as [Hge|Hlt].
    + simpl. exists (map entry_of (record :: rest)). split; [exact Hw | lia].
    + assert (Hw' : fetched w
                    = sent w
                        ++ map upsert_input (currentBatch ++ [formatContactForHubSpot record])
                        ++ map entry_of rest).
      { rewrite Hw, map_app. simpl. rewrite <- !app_assoc. reflexivity. }
      destruct (Z_length _ >=? batchSize); [|apply IH, Hw'].
      cbv zeta. unfold bind.
      pose proof (sendBatchToHubSpot_sent fuel
                    (currentBatch ++ [formatContactForHubSpot record]) w) as Hsend.
      cbv zeta in Hsend.
      destruct (sendBatchToHubSpot remote fuel _ w) as [[u|e|] w1];
        cbn [fst snd] in *; destruct Hsend as [Hf Hs].
      * apply IH. rewrite Hf, Hs, Hw', <- app_assoc. reflexivity.
      * eexists. rewrite Hf, Hs. exact Hw'.
      * eexists. rewrite Hf, Hs. exact Hw'.
Qed.

Lemma flush_remaining_sent fuel totalSynced currentBatch rest w :
  fetched w = sent w ++ map upsert_input currentBatch ++ rest ->
  let r := flush_remaining remote fuel totalSynced currentBatch w in
  exists rest', fetched (snd r) = sent (snd r) ++ rest'.
Proof.
  intros Hw. cbv zeta. unfold flush_remaining.
  destruct (Z_length currentBatch >? 0).
  - unfold bind.
    pose proof (sendBatchToHubSpot_sent fuel currentBatch w) as Hsend.
    cbv zeta in Hsend.
    destruct (sendBatchToHubSpot remote fuel _ w) as [[u|e|] w1];
      unfold ret; cbn [fst snd] in *; destruct Hsend as [Hf Hs];
      eexists; rewrite Hf, Hs, Hw, <- ?app_assoc; reflexivity.
  - simpl. eexists. exact Hw.
Qed.

(** One turn of the [while] loop below the cap: the page is fetched, then
    either the pending batch is flushed or the page is worked through. *)
Lemma sync_loop_turn fuel0 fuel totalSynced currentBatch off w :
  totalSynced < maxContactsToSync ->
  sync_loop table remote pageSize batchSize maxContactsToSync
            fuel0 (S fuel) totalSynced currentBatch off w
  = let opts := {| limit := Z.min pageSize (maxContactsToSync - totalSynced);
                   offset := off; order := None |} in
    let records := findAll table opts in
    let w1 := {| requests := requests w;
                 trace := trace w ++ [EvFetch opts records] |} in
    if Z_length records =? 0
    then flush_remaining remote fuel0 totalSynced currentBatch w1
    else bind (add_records remote batchSize maxContactsToSync fuel0 records
                           totalSynced currentBatch)
              (fun st =>
                 let '(totalSynced, currentBatch) := st in
                 if totalSynced >=? maxContactsToSync
                 then flush_remaining remote fuel0 totalSynced currentBatch
                 else sync_loop table remote pageSize batchSize maxContactsToSync
                                fuel0 fuel totalSynced currentBatch
                                (off + pageSize))
              w1.
Proof.
  intros Hlt. cbn [sync_loop].
  destruct (Z.ltb_spec totalSynced maxContactsToSync) as [_|Hge]; [|lia].
  cbv zeta. unfold bind at 1, fetch, bind at 1, emit, ret. cbn [fst snd].
  destruct (Z_length _ =? 0); reflexivity.
Qed.

Lemma sync_loop_sent fuel0 fuel : forall totalSynced currentBatch off w,
  fetched w = sent w ++ map upsert_input currentBatch ->
  let r := sync_loop table remote pageSize batchSize maxContactsToSync
                     fuel0 fuel totalSynced currentBatch off w in
  exists rest, fetched (snd r) = sent (snd r) ++ rest.
Proof.
  induction fuel as [|fuel IH]; intros totalSynced currentBatch off w Hw.
  - simpl. eexists. exact Hw.
  - destruct (Z.lt_ge_cases totalSynced maxContactsToSync) as [Hlt|Hge].
    2:{ cbn [sync_loop].
        destruct (Z.ltb_spec totalSynced maxContactsToSync) as [Hlt|_]; [lia|].
        simpl. eexists. exact Hw. }
    rewrite (sync_loop_turn fuel0 fuel totalSynced currentBatch off w Hlt).
    cbv zeta.
    set (opts := {| limit := Z.min pageSize (maxContactsToSync - totalSynced);
                    offset := off; order := None |}).
    set (records := findAll table opts).
    set (w1 := {| requests := requests w;
                  trace := trace w ++ [EvFetch opts records] |}).
    assert (Hw1 : fetched w1
                  = sent w1 ++ map upsert_input currentBatch ++ map entry_of records).
    { unfold fetched, sent, w1. cbn [trace].
      rewrite fetched_rows_app, sent_entries_app, map_app.
      unfold fetched_rows at 2, sent_entries at 2. simpl.
      rewrite !app_nil_r. fold (fetched w) (sent w). rewrite Hw, <- app_assoc.
      reflexivity. }
    destruct (Z_length records =? 0).
    + apply (flush_remaining_sent fuel0 totalSynced currentBatch
               (map entry_of records) w1 Hw1).
    + unfold bind.
      pose proof (add_records_sent fuel0 records totalSynced currentBatch w1 Hw1)
        as Hadd.
      cbv zeta in Hadd.
      destruct (add_records remote batchSize maxContactsToSync fuel0 records
                            totalSynced currentBatch w1)
        as [[[total' batch']|e|] w2]; cbn [fst snd] in *.
      * destruct Hadd as [rest [Hw2 Hrest]].
        destruct (Z.geb_spec total' maxContactsToSync) as [Hge'|Hlt'].
        -- apply (flush_remaining_sent fuel0 total' batch' rest w2 Hw2).
        -- apply IH. rewrite Hw2, (Hrest Hlt'), app_nil_r. reflexivity.
      * exact Hadd.
      * exact Hadd.
Qed.

End DeliveryOrder.

(** X6. At every point of every run, the entries the remote has accepted
    are the entries of the first rows fetched, in fetch order, each exactly
    once: nothing is delivered twice, out of order, or before an earlier
    fetched row. *)
Theorem delivered_entries_are_a_prefix_of_fetched_rows :
  forall (table : Table) (remote : Remote) (maxContactsToSync : Z) (fuel : nat),
    let tr := trace (snd (sync table remote maxContactsToSync fuel)) in
    sent_entries tr
    = map entry_of (firstn (List.length (sent_entries tr)) (fetched_rows tr)).
Proof.
  intros table remote maxContactsToSync fuel tr. subst tr. unfold sync.
  destruct (sync_with_epilogue table remote 5000 100 maxContactsToSync fuel
              initial_world) as [tail [-> [_ [Hposts Hfetches]]]].
  cbn [snd trace].
  assert (Hsent : sent_entries tail = []).
  { unfold sent_entries, delivered. clear -Hposts.
    induction tail as [|e tail IH]; [reflexivity|].
    destruct e as [| inputs reply | | |]; simpl in *;
      try (apply IH; exact Hposts); discriminate Hposts. }
  assert (Hfetched : fetched_rows tail = [])
    by (unfold fetched_rows; rewrite Hfetches; reflexivity).
  rewrite sent_entries_app, fetched_rows_app, Hsent, Hfetched, !app_nil_r.
  destruct (sync_loop_sent table remote 5000 100 maxContactsToSync
              fuel fuel 0 [] 0 initial_world eq_refl) as [rest Hloop].
  cbv zeta in Hloop.
  rewrite <- firstn_map, Hloop.
  rewrite firstn_app, firstn_all, Nat.sub_diag, firstn_O, app_nil_r.
  reflexivity.
Qed.

(** ** Egress: the shape of the upsert key *)

Lemma lower_char_idempotent c :
  JsString.lower_char (JsString.lower_char c) = JsString.lower_char c.
Proof. destruct c as [[] [] [] [] [] [] [] []]; reflexivity. Qed.

Lemma toLowerCase_idempotent s :
  JsString.toLowerCase (JsString.toLowerCase s) = JsString.toLowerCase s.
Proof.
  induction s as [|c s IH]; simpl; [reflexivity|].
  rewrite lower_char_idempotent, IH. reflexivity.
Qed.

Lemma toLowerCase_append a b :
  JsString.toLowerCase (a ++ b)
  = (JsString.toLowerCase a ++ JsString.toLowerCase b)%string.
Proof. induction a as [|c a IH]; simpl; [reflexivity | now rewrite IH]. Qed.

(** Replacing the runs of white space of a lower-case string by dots
    leaves it lower-case. *)
Lemma replace_space_runs_lower in_run s :
  JsString.toLowerCase s = s ->
  JsString.toLowerCase (JsString.replace_space_runs_from in_run "." s)
  = JsString.replace_space_runs_from in_run "." s.
Proof.
  revert in_run. induction s as [|c s IH]; intros in_run Hs; simpl; [reflexivity|].
  simpl in Hs. injection Hs as Hc Hs.
  destruct (JsString.is_space c).
  - destruct in_run; simpl; rewrite (IH true Hs); reflexivity.
  - simpl. rewrite Hc, (IH false Hs). reflexivity.
Qed.

Lemma no_space_append a b :
  Forall (fun c => JsString.is_space c = false) (list_ascii_of_string a) ->
  Forall (fun c => JsString.is_space c = false) (list_ascii_of_string b) ->
  Forall (fun c => JsString.is_space c = false) (list_ascii_of_string (a ++ b)).
Proof.
  intros Ha Hb. induction a as [|c a IH]; simpl in *; [exact Hb|].
  inversion Ha; subst. constructor; [assumption | apply IH; assumption].
Qed.

Lemma replace_space_runs_no_space in_run s :
  Forall (fun c => JsString.is_space c = false)
         (list_ascii_of_string (JsString.replace_space_runs_from in_run "." s)).
Proof.
  revert in_run. induction s as [|c s IH]; intros in_run; simpl; [constructor|].
  destruct (JsString.is_space c) eqn:Hc.
  - destruct in_run; [apply IH|].
    simpl. constructor; [reflexivity | apply IH].
  - simpl. constructor; [exact Hc | apply IH].
Qed.

(** X7. The upsert key of any row is free of white space and already in
    lower case, whatever the name holds. *)
Theorem upsert_key_is_normalized :
  forall r : BabyNameRow,
    Forall (fun c => JsString.is_space c = false)
           (list_ascii_of_string (upsert_key r))
    /\ JsString.toLowerCase (upsert_key r) = upsert_key r.
Proof.
  intros r. rewrite upsert_key_email, email_of_shape. unfold key_name. split.
  - apply no_space_append.
    + apply replace_space_runs_no_space.
    + destruct (sex r); repeat constructor.
  - rewrite toLowerCase_append.
    unfold JsString.replace_space_runs.
    rewrite replace_space_runs_lower by apply toLowerCase_idempotent.
    destruct (sex r); reflexivity.
Qed.

(** ** Ingestion: the size of the bulk inserts *)

Lemma write_attempts_app l1 l2 :
  write_attempts (l1 ++ l2) = write_attempts l1 ++ write_attempts l2.
Proof. unfold write_attempts. apply flat_map_app. Qed.

Section InsertSizes.

Variable sink : Sink.
Variable batchSize : Z.

(** While rows arrive, the pending batch stays below the threshold and
    every insert issued carries exactly the threshold, when that is at
    least 1. *)
Lemma on_data_full_batches st row :
  1 <= batchSize ->
  Z_length (batch st) < batchSize ->
  Forall (fun b => Z_length b = batchSize) (write_attempts (import_log st)) ->
  Z_length (batch (on_data sink batchSize st row)) < batchSize
  /\ Forall (fun b => Z_length b = batchSize)
            (write_attempts (import_log (on_data sink batchSize st row))).
Proof.
  intros Hbs Hlen Hall. unfold on_data.
  destruct (JsString.falsy (Name row) || JsString.falsy (Sex row)).
  - cbn [batch import_log]. split; [exact Hlen|].
    rewrite write_attempts_app, app_nil_r. exact Hall.
  - destruct (Name row) as [n|], (Sex row) as [s|]; try (split; assumption).
    destruct (Z.geb_spec (Z_length (batch st ++ [record_of n s])) batchSize)
      as [Hfull|Hroom].
    + rewrite Z_length_snoc in Hfull.
      assert (Hexact : Z_length (batch st ++ [record_of n s]) = batchSize)
        by (rewrite Z_length_snoc; lia).
      destruct (sink _ _); cbn [batch import_log];
        (split; [unfold Z_length; simpl; lia|]);
        rewrite write_attempts_app; apply Forall_app; (split; [exact Hall|]);
        simpl; constructor; try exact Hexact; constructor.
    + cbn [batch import_log]. split; [exact Hroom | exact Hall].
Qed.

Lemma fold_on_data_full_batches rows : forall st,
  1 <= batchSize ->
  Z_length (batch st) < batchSize ->
  Forall (fun b => Z_length b = batchSize) (write_attempts (import_log st)) ->
  let st' := fold_left (on_data sink batchSize) rows st in
  Z_length (batch st') < batchSize
  /\ Forall (fun b => Z_length b = batchSize) (write_attempts (import_log st')).
Proof.
  induction rows as [|row rows IH]; intros st Hbs Hlen Hall; [split; assumption|].
  destruct (on_data_full_batches st row Hbs Hlen Hall) as [Hlen' Hall'].
  apply (IH _ Hbs Hlen' Hall').
Qed.

(** With a threshold of 1 or less nothing is ever left pending: every
    record is inserted on its own. *)
Lemma fold_on_data_singletons rows : forall st,
  batchSize <= 1 ->
  batch st = [] ->
  let st' := fold_left (on_data sink batchSize) rows st in
  batch st' = []
  /\ write_attempts (import_log st')
     = write_attempts (import_log st)
         ++ map (fun r => [r]) (flat_map accepted_record rows).
Proof.
  induction rows as [|row rows IH]; intros st Hbs Hempty.
  - split; [exact Hempty | simpl; now rewrite app_nil_r].
  - assert (Hstep : batch (on_data sink batchSize st row) = []
                    /\ write_attempts (import_log (on_data sink batchSize st row))
                       = write_attempts (import_log st)
                           ++ map (fun r => [r]) (accepted_record row)).
    { unfold on_data, accepted_record, passes_validation.
      destruct (Name row) as [[|c n]|], (Sex row) as [[|d s]|];
        cbn [JsString.falsy orb negb batch import_log];
        try (split; [exact Hempty|]; rewrite ?write_attempts_app; simpl;
             rewrite ?app_nil_r; reflexivity).
      rewrite Hempty. cbn [app].
      destruct (Z.geb_spec (Z_length [record_of (String c n) (String d s)]) batchSize)
        as [_|Hlt]; [|unfold Z_length in Hlt; simpl in Hlt; lia].
      destruct (sink _ _); cbn [batch import_log];
        (split; [reflexivity|]); rewrite write_attempts_app; reflexivity. }
    destruct Hstep as [Hb Hw].
    destruct (IH _ Hbs Hb) as [Hb' Hw'].
    cbv zeta in *. cbn [fold_left flat_map].
    split; [exact Hb'|]. rewrite Hw', Hw, map_app, app_assoc. reflexivity.
Qed.

End InsertSizes.

(** The log of a run, read off the state the last row left. *)
Lemma import_log_split sink batchSize rows finish :
  let last := fold_left (on_data sink batchSize) rows import_start in
  exists final tail,
    snd (import sink batchSize rows finish) = import_log last ++ final ++ tail
    /\ write_attempts tail = [] /\ skipped_rows tail = []
    /\ (final = []
        \/ exists result,
             finish = StreamEnds /\ batch last <> []
             /\ final = [IvBulkCreate (batch last) result]).
Proof.
  intros last. destruct finish as [|err].
  - rewrite import_outcome. fold last.
    destruct (Z_length (batch last) >? 0) eqn:Hlen.
    + assert (Hne : batch last <> [])
        by (intros Hnil; rewrite Hnil in Hlen; discriminate Hlen).
      destruct (sink (writes last) (batch last)) as [remaining|err]; cbn [snd].
      * exists [IvBulkCreate (batch last) (Created remaining)], [IvClose].
        repeat split. right. eexists. repeat split. exact Hne.
      * exists [IvBulkCreate (batch last) (WriteFailed err)],
          [IvFinalBatchError err; IvHandleError err; IvClose].
        repeat split. right. eexists. repeat split. exact Hne.
    + exists [], [IvClose]. repeat split. left. reflexivity.
  - unfold import, read_stream, on_error. fold last. cbn [snd import_log].
    exists [], [IvStreamError err; IvHandleError err; IvClose].
    rewrite <- app_assoc. repeat split. left. reflexivity.
Qed.

(** X8. With a threshold of at least 1, every bulk insert of a run
    carries exactly the threshold, except that the last one, flushed at
    the end of the input, carries fewer (and at least one). *)
Theorem bulk_inserts_fill_the_threshold :
  forall (sink : Sink) (batchSize : Z) (rows : list CsvRow) (finish : StreamFinish),
    1 <= batchSize ->
    exists full final,
      write_attempts (snd (import sink batchSize rows finish)) = full ++ final
      /\ Forall (fun b => Z_length b = batchSize) full
      /\ (final = [] \/ exists b, final = [b] /\ 1 <= Z_length b < batchSize).
Proof.
  intros sink batchSize rows finish Hbs.
  destruct (import_log_split sink batchSize rows finish)
    as [final [tail [-> [Htail [_ Hfinal]]]]].
  destruct (fold_on_data_full_batches sink batchSize rows import_start Hbs)
    as [Hpending Hfull]; [unfold Z_length; simpl; lia | constructor |].
  rewrite !write_attempts_app, Htail, app_nil_r.
  exists (write_attempts
            (import_log (fold_left (on_data sink batchSize) rows import_start))),
    (write_attempts final).
  split; [reflexivity|]. split; [exact Hfull|].
  destruct Hfinal as [->|[result [_ [Hne ->]]]]; [left; reflexivity|].
  right. eexists. split; [reflexivity|].
  destruct (batch _) as [|r l]; [contradiction|].
  unfold Z_length in *. simpl in *. lia.
Qed.

(** The scenario rows with threshold 2. *)
Lemma bulk_inserts_fill_the_threshold_example :
  exists full final,
    write_attempts (snd (import rejecting_sink 2 scenario_rows StreamEnds))
    = full ++ final
    /\ Forall (fun b => Z_length b = 2) full
    /\ (final = [] \/ exists b, final = [b] /\ 1 <= Z_length b < 2).
Proof.
  apply (bulk_inserts_fill_the_threshold rejecting_sink 2 scenario_rows StreamEnds).
  lia.
Defined.

(** X9. With a threshold of 1 or less (a negative [BATCH_SIZE] included)
    every validated row is handed to the store in a bulk insert of its
    own, in input order. *)
Theorem threshold_of_one_or_less_inserts_row_by_row :
  forall (sink : Sink) (batchSize : Z) (rows : list CsvRow) (finish : StreamFinish),
    batchSize <= 1 ->
    write_attempts (snd (import sink batchSize rows finish))
    = map (fun r => [r]) (flat_map accepted_record rows).
Proof.
  intros sink batchSize rows finish Hbs.
  destruct (import_log_split sink batchSize rows finish)
    as [final [tail [-> [Htail [_ Hfinal]]]]].
  destruct (fold_on_data_singletons sink batchSize rows import_start Hbs eq_refl)
    as [Hempty Hwrites].
  rewrite !write_attempts_app, Htail, app_nil_r, Hwrites.
  destruct Hfinal as [->|[result [_ [Hne _]]]]; [apply app_nil_r | contradiction].
Qed.

(** The scenario rows with threshold -5. *)
Lemma threshold_of_one_or_less_inserts_row_by_row_example :
  write_attempts (snd (import rejecting_sink (-5) scenario_rows StreamEnds))
  = map (fun r => [r]) (flat_map accepted_record scenario_rows).
Proof.
  apply threshold_of_one_or_less_inserts_row_by_row. lia.
Defined.

(** ** Ingestion: a stream that fails *)

Lemma concat_of_full_batches {A} (n : Z) (l : list (list A)) :
  1 <= n ->
  Forall (fun b => Z_length b = n) l ->
  l = [] \/ n <= Z_length (List.concat l).
Proof.
  intros Hn Hall. destruct Hall as [|b l Hb _]; [left; reflexivity|].
  right. unfold Z_length in *. simpl. rewrite length_app. lia.
Qed.

(** X10. When the row stream fails, the run is rejected with the stream's
    error; the records already inserted are a prefix of the validated
    rows, and the batch pending at that moment (fewer than the threshold)
    never reaches the store: if fewer validated rows than the threshold
    were read, nothing is inserted at all. *)
Theorem stream_failure_loses_the_pending_batch :
  forall (sink : Sink) (batchSize : Z) (rows : list CsvRow) (err : Error),
    let run := import sink batchSize rows (StreamFails err) in
    fst run = ImportRejected err
    /\ exists pending,
         flat_map accepted_record rows = records_produced (snd run) ++ pending
         /\ (1 <= batchSize ->
             Z_length pending < batchSize
             /\ (Z_length (flat_map accepted_record rows) < batchSize ->
                 write_attempts (snd run) = [])).
Proof.
  intros sink batchSize rows err run. subst run.
  split; [reflexivity|].
  destruct (import_log_split sink batchSize rows (StreamFails err))
    as [final [tail [Hlog [Htail [_ Hfinal]]]]].
  destruct Hfinal as [->|[result [Hfinish _]]]; [|discriminate Hfinish].
  rewrite Hlog. cbn [app].
  set (last := fold_left (on_data sink batchSize) rows import_start) in *.
  pose proof (fold_on_data_records sink batchSize rows import_start) as Hrecords.
  cbv zeta in Hrecords. fold last in Hrecords. simpl in Hrecords.
  exists (batch last).
  assert (Hproduced : records_produced (import_log last ++ tail)
                      = records_produced (import_log last)).
  { unfold records_produced. rewrite write_attempts_app, Htail, app_nil_r.
    reflexivity. }
  rewrite Hproduced. split; [symmetry; exact Hrecords|].
  intros Hbs.
  destruct (fold_on_data_full_batches sink batchSize rows import_start Hbs)
    as [Hpending Hfull]; [unfold Z_length; simpl; lia | constructor |].
  fold last in Hpending, Hfull. split; [exact Hpending|].
  intros Hfew. rewrite write_attempts_app, Htail, app_nil_r.
  destruct (concat_of_full_batches batchSize _ Hbs Hfull) as [Hnone|Hsome];
    [exact Hnone|].
  exfalso. rewrite <- Hrecords in Hfew. unfold records_produced in Hfew.
  unfold Z_length in *. rewrite length_app in Hfew. lia.
Qed.

(** ** Ingestion: the counts *)

Lemma created_count_app l1 l2 :
  created_count (l1 ++ l2) = created_count l1 + created_count l2.
Proof.
  unfold created_count. induction l1 as [|e l1 IH]; simpl; [reflexivity|].
  destruct e as [| b [created|err] | | | | |]; lia.
Qed.

Section Counts.

Variable sink : Sink.
Variable batchSize : Z.

Lemma on_data_counts st row :
  totalInserted st = created_count (import_log st) ->
  totalInserted (on_data sink batchSize st row)
  = created_count (import_log (on_data sink batchSize st row)).
Proof.
  intros H. unfold on_data.
  destruct (JsString.falsy (Name row) || JsString.falsy (Sex row));
    cbn [totalInserted import_log].
  - rewrite created_count_app. simpl. lia.
  - destruct (Name row) as [n|], (Sex row) as [s|]; try exact H.
    destruct (Z_length _ >=? batchSize); [|exact H].
    destruct (sink _ _); cbn [totalInserted import_log];
      rewrite created_count_app; simpl; lia.
Qed.

Lemma fold_on_data_counts rows : forall st,
  totalInserted st = created_count (import_log st) ->
  totalInserted (fold_left (on_data sink batchSize) rows st)
  = created_count (import_log (fold_left (on_data sink batchSize) rows st)).
Proof.
  induction rows as [|row rows IH]; intros st H; [exact H|].
  apply IH, on_data_counts, H.
Qed.

(** Against a store that reports every record, what was reported is what
    was handed over. *)
Lemma created_count_reported log :
  reports_every_record sink ->
  (forall b result, In (IvBulkCreate b result) log ->
                    exists k, result = sink k b) ->
  created_count log = Z_length (records_produced log).
Proof.
  intros Hsink. induction log as [|e log IH]; intros Hlog; [reflexivity|].
  assert (IH' : created_count log = Z_length (records_produced log)).
  { apply IH. intros b result Hin. apply (Hlog b result). right. exact Hin. }
  destruct e as [| b result | | | | |]; try exact IH'.
  destruct (Hlog b result (or_introl eq_refl)) as [k ->].
  destruct (Hsink k b) as [created [Hk Hlen]].
  unfold records_produced, write_attempts in *. simpl.
  rewrite Hk. unfold Z_length in *. rewrite length_app. lia.
Qed.

Lemma on_data_results st row :
  (forall b result, In (IvBulkCreate b result) (import_log st) ->
                    exists k, result = sink k b) ->
  forall b result,
    In (IvBulkCreate b result) (import_log (on_data sink batchSize st row)) ->
    exists k, result = sink k b.
Proof.
  intros H b result. unfold on_data.
  destruct (JsString.falsy (Name row) || JsString.falsy (Sex row));
    cbn [import_log].
  - intros Hin. apply in_app_or in Hin. destruct Hin as [Hin|[Hin|[]]];
      [apply (H _ _ Hin) | discriminate Hin].
  - destruct (Name row) as [n|], (Sex row) as [s|]; try apply H.
    destruct (Z_length _ >=? batchSize); [|apply H].
    destruct (sink (writes st) _) eqn:Hsink; cbn [import_log]; intros Hin;
      apply in_app_or in Hin; destruct Hin as [Hin|Hin];
      try (apply (H _ _ Hin)); simpl in Hin;
      repeat (destruct Hin as [Hin|Hin]; try discriminate Hin; try contradiction);
      injection Hin as <- <-; eexists; symmetry; exact Hsink.
Qed.

Lemma fold_on_data_results rows : forall st,
  (forall b result, In (IvBulkCreate b result) (import_log st) ->
                    exists k, result = sink k b) ->
  forall b result,
    In (IvBulkCreate b result)
       (import_log (fold_left (on_data sink batchSize) rows st)) ->
    exists k, result = sink k b.
Proof.
  induction rows as [|row rows IH]; intros st H; [exact H|].
  apply IH, on_data_results, H.
Qed.

End Counts.

Lemma accepted_record_count rows :
  List.length (flat_map accepted_record rows)
  = List.length (filter passes_validation rows).
Proof.
  pose proof (accepted_records_normalized rows) as H.
  symmetry. apply (Forall2_length H).
Qed.

(** X11. The count a completed import returns is the number of instances
    the store reported as created over the whole run; an insert that
    failed adds nothing to it. *)
Theorem import_returns_what_the_store_reported :
  forall (sink : Sink) (batchSize : Z) (rows : list CsvRow) (n : Z),
    fst (import sink batchSize rows StreamEnds) = ImportResolved n ->
    n = created_count (snd (import sink batchSize rows StreamEnds)).
Proof.
  intros sink batchSize rows n. rewrite import_outcome.
  pose proof (fold_on_data_counts sink batchSize rows import_start eq_refl) as H.
  set (last := fold_left (on_data sink batchSize) rows import_start) in *.
  destruct (Z_length (batch last) >? 0).
  - destruct (sink (writes last) (batch last)) as [remaining|err]; cbn [fst snd];
      intros Hn; [|discriminate Hn].
    injection Hn as <-. rewrite !created_count_app, <- H. simpl. lia.
  - cbn [fst snd]. intros Hn. injection Hn as <-.
    rewrite created_count_app, <- H. simpl. lia.
Qed.

(** The scenario rows against a store that accepts every batch. *)
Lemma import_returns_what_the_store_reported_example :
  2 = created_count (snd (import accepting_sink 2 scenario_rows StreamEnds)).
Proof.
  apply (import_returns_what_the_store_reported accepting_sink 2 scenario_rows 2).
  reflexivity.
Defined.

(** X12. Against a store that reports one created instance per record, a
    run over a stream that ends returns the number of rows that passed
    validation, and every row read is either skipped or counted. *)
Theorem rows_read_are_skipped_or_inserted :
  forall (sink : Sink) (batchSize : Z) (rows : list CsvRow),
    reports_every_record sink ->
    let run := import sink batchSize rows StreamEnds in
    fst run = ImportResolved (Z_length (filter passes_validation rows))
    /\ Z_length rows
       = Z_length (skipped_rows (snd run))
         + Z_length (filter passes_validation rows).
Proof.
  intros sink batchSize rows Hsink run. subst run. split.
  - pose proof (import_records_produced sink batchSize rows) as Hproduced.
    revert Hproduced. rewrite import_outcome.
    pose proof (fold_on_data_counts sink batchSize rows import_start eq_refl) as Hc.
    pose proof (fold_on_data_results sink batchSize rows import_start) as Hr.
    set (last := fold_left (on_data sink batchSize) rows import_start) in *.
    assert (Hlast : created_count (import_log last)
                    = Z_length (records_produced (import_log last))).
    { apply (created_count_reported sink _ Hsink). apply Hr.
      intros b result []. }
    assert (Hvalid : Z_length (filter passes_validation rows)
                     = Z_length (flat_map accepted_record rows))
      by (unfold Z_length; rewrite accepted_record_count; reflexivity).
    rewrite Hvalid.
    destruct (Z_length (batch last) >? 0) eqn:Hlen.
    + destruct (Hsink (writes last) (batch last)) as [created [-> Hcreated]].
      cbn [fst snd]. intros <-. f_equal.
      rewrite records_produced_app. unfold records_produced at 2. simpl.
      rewrite app_nil_r. unfold Z_length in *.
      rewrite length_app, Nat2Z.inj_add, Hc, Hlast, Hcreated. reflexivity.
    + cbn [fst snd]. intros <-. f_equal.
      rewrite records_produced_app. unfold records_produced at 2. simpl.
      rewrite app_nil_r, Hc, Hlast. reflexivity.
  - unfold Z_length. rewrite import_skipped.
    assert (Hsplit : List.length rows
                     = (List.length (filter (fun r => negb (passes_validation r)) rows)
                        + List.length (filter passes_validation rows))%nat).
    { induction rows as [|row rows IH]; simpl; [reflexivity|].
      destruct (passes_validation row); simpl; lia. }
    lia.
Qed.

(** The scenario rows: one skipped, two inserted. *)
Lemma rows_read_are_skipped_or_inserted_example :
  let run := import accepting_sink 2 scenario_rows StreamEnds in
  fst run = ImportResolved (Z_length (filter passes_validation scenario_rows))
  /\ Z_length scenario_rows
     = Z_length (skipped_rows (snd run))
       + Z_length (filter passes_validation scenario_rows).
Proof.
  apply rows_read_are_skipped_or_inserted.
  intros k b. exists b. split; reflexivity.
Defined.

(** ** Ingestion: validation comes before trimming *)

Lemma trimStart_all_space s : JsString.all_space s -> JsString.trimStart s = "".
Proof.
  unfold JsString.all_space. induction s as [|c s IH]; simpl; intros H; [reflexivity|].
  inversion H as [|? ? Hc Hs]; subst. rewrite Hc. apply IH, Hs.
Qed.

Lemma trim_all_space s : JsString.all_space s -> JsString.trim s = "".
Proof. intros H. unfold JsString.trim. rewrite trimStart_all_space by exact H. reflexivity. Qed.

(** X13. A row whose [Name] is not empty but holds white space only
    passes validation, and is handed to the store with the empty name:
    the fields are checked before they are trimmed. *)
Theorem blank_name_is_stored_as_empty_name :
  forall (sink : Sink) (batchSize : Z) (nameField sexField : string),
    nameField <> "" ->
    JsString.all_space nameField ->
    sexField <> "" ->
    let row := {| Name := Some nameField; Sex := Some sexField |} in
    passes_validation row = true
    /\ records_produced (snd (import sink batchSize [row] StreamEnds))
       = [ {| attr_name := "";
              attr_sex := if String.eqb (JsString.trim sexField) "M" then M else F |} ].
Proof.
  intros sink batchSize nameField sexField Hname Hblank Hsex row.
  assert (Hvalid : passes_validation row = true).
  { unfold passes_validation, row. simpl.
    destruct nameField; [contradiction|]. destruct sexField; [contradiction|].
    reflexivity. }
  split; [exact Hvalid|].
  rewrite import_records_produced. simpl. rewrite app_nil_r.
  unfold accepted_record. cbn [Name Sex row]. fold row. rewrite Hvalid.
  unfold record_of. rewrite (trim_all_space nameField Hblank). reflexivity.
Qed.

(** A name of two spaces. *)
Lemma blank_name_is_stored_as_empty_name_example :
  let row := {| Name := Some "  "; Sex := Some "M" |} in
  passes_validation row = true
  /\ records_produced (snd (import rejecting_sink 1000 [row] StreamEnds))
     = [ {| attr_name := "";
            attr_sex := if String.eqb (JsString.trim "M") "M" then M else F |} ].
Proof.
  apply blank_name_is_stored_as_empty_name.
  - discriminate.
  - repeat constructor.
  - discriminate.
Defined.

(** ** Ingestion: the row numbers in the log *)

Section RowNumbers.

Variable sink : Sink.
Variable batchSize : Z.

Lemma on_data_row_number st row :
  rowCount (on_data sink batchSize st row) = rowCount st + 1
  /\ skipped_rows (import_log (on_data sink batchSize st row))
     = skipped_rows (import_log st)
         ++ (if passes_validation row then [] else [rowCount st + 1]).
Proof.
  unfold on_data, passes_validation.
  destruct (Name row) as [[|c n]|], (Sex row) as [[|d s]|];
    cbn [JsString.falsy orb negb rowCount import_log];
    try (split; [reflexivity|]; rewrite skipped_rows_app; reflexivity).
  destruct (Z_length _ >=? batchSize); cbn [rowCount import_log];
    [|split; [reflexivity | now rewrite app_nil_r]].
  destruct (sink _ _); cbn [rowCount import_log];
    (split; [reflexivity|]); rewrite skipped_rows_app; reflexivity.
Qed.

Lemma fold_on_data_row_numbers rows : forall st,
  skipped_rows (import_log (fold_left (on_data sink batchSize) rows st))
  = skipped_rows (import_log st) ++ invalid_positions (rowCount st + 1) rows.
Proof.
  induction rows as [|row rows IH]; intros st; cbn [fold_left invalid_positions].
  - now rewrite app_nil_r.
  - destruct (on_data_row_number st row) as [Hcount Hskipped].
    rewrite IH, Hcount, Hskipped, <- app_assoc. reflexivity.
Qed.

End RowNumbers.

(** X14. The row numbers logged for the skipped rows are the 1-based
    positions, in the stream, of the rows that failed validation, in
    order, however the stream finishes. *)
Theorem skipped_rows_are_logged_by_position :
  forall (sink : Sink) (batchSize : Z) (rows : list CsvRow) (finish : StreamFinish),
    skipped_rows (snd (import sink batchSize rows finish))
    = invalid_positions 1 rows.
Proof.
  intros sink batchSize rows finish.
  destruct (import_log_split sink batchSize rows finish)
    as [final [tail [-> [_ [Htail Hfinal]]]]].
  rewrite !skipped_rows_app, Htail, app_nil_r, fold_on_data_row_numbers.
  destruct Hfinal as [->|[result [_ [_ ->]]]]; simpl; now rewrite app_nil_r.
Qed.

(** ** Locating the input file *)

Module JsSearchFacts.
Import JsSearch.

Lemma startsWith_iff s p :
  startsWith s p = true <-> exists t, s = (p ++ t)%string.
Proof.
  revert s. induction p as [|c p IH]; intros s; simpl.
  - split; [intros _; exists s; reflexivity | reflexivity].
  - destruct s as [|d s].
    + split; [discriminate | intros [t Ht]; discriminate Ht].
    + rewrite andb_true_iff, IH. split.
      * intros [Hc [t ->]]. apply Ascii.eqb_eq in Hc. subst d.
        exists t. reflexivity.
      * intros [t Ht]. injection Ht as -> ->. split.
        -- apply Ascii.eqb_refl.
        -- exists t. reflexivity.
Qed.

Lemma includes_iff s sub :
  includes s sub = true <-> exists a b, s = (a ++ sub ++ b)%string.
Proof.
  induction s as [|c s IH].
  - cbn [includes]. rewrite orb_false_r, startsWith_iff. split.
    + intros [t Ht]. exists "", t. exact Ht.
    + intros [a [b H]]. destruct a as [|d a]; [|discriminate H].
      exists b. exact H.
  - cbn [includes]. rewrite orb_true_iff, startsWith_iff, IH. split.
    + intros [[t Ht]|[a [b Hab]]].
      * exists "", t. exact Ht.
      * exists (String c a), b. simpl. now rewrite Hab.
    + intros [a [b H]]. destruct a as [|d a].
      * left. exists b. exact H.
      * right. simpl in H. injection H as _ H. exists a, b. exact H.
Qed.

Lemma endsWith_iff s suf :
  endsWith s suf = true <-> exists a, s = (a ++ suf)%string.
Proof.
  induction s as [|c s IH].
  - cbn [endsWith]. rewrite orb_false_r, String.eqb_eq. split.
    + intros <-. exists "". reflexivity.
    + intros [a H]. destruct a as [|d a]; [exact H | discriminate H].
  - cbn [endsWith]. rewrite orb_true_iff, String.eqb_eq, IH. split.
    + intros [<-|[a ->]].
      * exists "". reflexivity.
      * exists (String c a). reflexivity.
    + intros [a H]. destruct a as [|d a].
      * left. exact H.
      * right. simpl in H. injection H as _ H. exists a. exact H.
Qed.

Lemma endsWith_false_iff s suf :
  endsWith s suf = false <-> ~ exists a, s = (a ++ suf)%string.
Proof.
  rewrite <- endsWith_iff. destruct (endsWith s suf); split; congruence.
Qed.

End JsSearchFacts.

Section FileLookupFacts.

Variable path_join : string -> string -> string.
Variable downloadDir : string.

Let is_zip (f : string) : Prop := exists a, f = (a ++ ".zip")%string.
Let is_csv (f : string) : Prop := exists a, f = (a ++ ".csv")%string.

Lemma findCsvFile_found files p :
  findCsvFile path_join downloadDir files = inr p ->
  exists f,
    In f files /\ p = path_join downloadDir f
    /\ (is_zip f \/ (is_csv f /\ forall g, In g files -> ~ is_zip g)).
Proof.
  unfold findCsvFile.
  destruct (find (fun f => JsSearch.endsWith f ".zip") files) as [zipFile|] eqn:Hzip.
  - intros H. injection H as <-. apply find_some in Hzip. destruct Hzip as [Hin Hz].
    exists zipFile. repeat split; [exact Hin|]. left.
    apply JsSearchFacts.endsWith_iff, Hz.
  - destruct (find (fun f => JsSearch.endsWith f ".csv") files) as [csvFile|] eqn:Hcsv;
      [|discriminate].
    intros H. injection H as <-. apply find_some in Hcsv. destruct Hcsv as [Hin Hc].
    exists csvFile. repeat split; [exact Hin|]. right. split.
    + apply JsSearchFacts.endsWith_iff, Hc.
    + intros g Hg. apply JsSearchFacts.endsWith_false_iff.
      apply (find_none _ _ Hzip g Hg).
Qed.

Lemma findCsvFile_missing files e :
  findCsvFile path_join downloadDir files = inl e ->
  e = AppError "FILE_NOT_FOUND" 404 ("No CSV or ZIP file found in " ++ downloadDir)
  /\ forall g, In g files -> ~ is_zip g /\ ~ is_csv g.
Proof.
  unfold findCsvFile.
  destruct (find (fun f => JsSearch.endsWith f ".zip") files) as [zipFile|] eqn:Hzip;
    [discriminate|].
  destruct (find (fun f => JsSearch.endsWith f ".csv") files) as [csvFile|] eqn:Hcsv;
    [discriminate|].
  intros H. injection H as <-. split; [reflexivity|].
  intros g Hg. split; apply JsSearchFacts.endsWith_false_iff.
  - apply (find_none _ _ Hzip g Hg).
  - apply (find_none _ _ Hcsv g Hg).
Qed.

End FileLookupFacts.

(** X15. [findCsvFile] returns a file of the directory listing: an
    archive ([.zip]) whenever the listing has one, even if a [.csv] comes
    first, and a [.csv] only when there is no archive; it throws
    [FILE_NOT_FOUND] (404) exactly when no listed name ends with [.zip] or
    [.csv]. *)
Theorem findCsvFile_prefers_the_archive :
  forall (path_join : string -> string -> string) (downloadDir : string)
         (files : list string),
    match findCsvFile path_join downloadDir files with
    | inr p =>
        exists f,
          In f files /\ p = path_join downloadDir f
          /\ ((exists a, f = (a ++ ".zip")%string)
              \/ ((exists a, f = (a ++ ".csv")%string)
                  /\ forall g, In g files -> ~ exists a, g = (a ++ ".zip")%string))
    | inl e =>
        e = AppError "FILE_NOT_FOUND" 404
                     ("No CSV or ZIP file found in " ++ downloadDir)
        /\ forall g, In g files ->
                     (~ exists a, g = (a ++ ".zip")%string)
                     /\ (~ exists a, g = (a ++ ".csv")%string)
    end.
Proof.
  intros path_join downloadDir files.
  destruct (findCsvFile path_join downloadDir files) as [e|p] eqn:H.
  - apply (findCsvFile_missing path_join downloadDir files e H).
  - apply (findCsvFile_found path_join downloadDir files p H).
Qed.

(** X16. The downloader's check for an existing file and the importer's
    search agree on whether the directory holds an input: the download is
    skipped exactly when [findCsvFile] will not throw; and when the
    listing has no archive both name the same file. *)
Theorem existing_file_check_agrees_with_findCsvFile :
  forall (path_join : string -> string -> string) (downloadDir : string)
         (files : list string),
    (getExistingFile path_join downloadDir files = None
     <-> exists e, findCsvFile path_join downloadDir files = inl e)
    /\ ((forall g, In g files -> JsSearch.endsWith g ".zip" = false) ->
        forall p,
          getExistingFile path_join downloadDir files = Some p
          <-> findCsvFile path_join downloadDir files = inr p).
Proof.
  intros path_join downloadDir files. unfold getExistingFile, findCsvFile. split.
  - induction files as [|f files IH]; simpl.
    + split; [intros _; eexists; reflexivity | reflexivity].
    + destruct (JsSearch.endsWith f ".zip") eqn:Hz.
      * rewrite orb_true_r. split; [discriminate | intros [e He]; discriminate He].
      * rewrite orb_false_r. destruct (JsSearch.endsWith f ".csv") eqn:Hc.
        -- split; [discriminate|]. intros [e He].
           destruct (find (fun f0 => JsSearch.endsWith f0 ".zip") files);
             discriminate He.
        -- exact IH.
  - intros Hnozip p.
    assert (Hzip : find (fun f => JsSearch.endsWith f ".zip") files = None).
    { clear -Hnozip. induction files as [|f files IH]; [reflexivity|]. simpl.
      rewrite (Hnozip f (or_introl eq_refl)). apply IH.
      intros g Hg. apply Hnozip. right. exact Hg. }
    rewrite Hzip.
    assert (Hsame : find (fun f => JsSearch.endsWith f ".csv" || JsSearch.endsWith f ".zip") files
                    = find (fun f => JsSearch.endsWith f ".csv") files).
    { clear -Hnozip. induction files as [|f files IH]; [reflexivity|]. simpl.
      rewrite (Hnozip f (or_introl eq_refl)), orb_false_r.
      destruct (JsSearch.endsWith f ".csv"); [reflexivity|].
      apply IH. intros g Hg. apply Hnozip. right. exact Hg. }
    rewrite Hsame.
    destruct (find (fun f => JsSearch.endsWith f ".csv") files) as [csvFile|].
    + split; intros H; injection H as <-; reflexivity.
    + split; discriminate.
Qed.

(** X17. [extractZip] extracts the first entry that is not a directory
    and whose name contains [.csv] anywhere (not only at its end), and
    throws [CSV_NOT_IN_ZIP] (400) exactly when the archive has no such
    entry. *)
Theorem extractZip_takes_the_first_csv_entry :
  forall (path_join : string -> string -> string) (downloadDir : string)
         (entries : list ZipEntry),
    match extractZip path_join downloadDir entries with
    | inr (csvEntry, extractedPath) =>
        exists before after,
          entries = before ++ csvEntry :: after
          /\ isDirectory csvEntry = false
          /\ (exists a b, entryName csvEntry = (a ++ ".csv" ++ b)%string)
          /\ extractedPath = path_join downloadDir (entryName csvEntry)
          /\ forall e, In e before ->
                       isDirectory e = true
                       \/ ~ exists a b, entryName e = (a ++ ".csv" ++ b)%string
    | inl err =>
        err = AppError "CSV_NOT_IN_ZIP" 400 "No CSV file found inside ZIP"
        /\ forall e, In e entries ->
                     isDirectory e = true
                     \/ ~ exists a b, entryName e = (a ++ ".csv" ++ b)%string
    end.
Proof.
  intros path_join downloadDir entries. unfold extractZip.
  set (wanted := fun e => JsSearch.includes (entryName e) ".csv" && negb (isDirectory e)).
  assert (Hno : forall e, wanted e = false ->
                          isDirectory e = true
                          \/ ~ exists a b, entryName e = (a ++ ".csv" ++ b)%string).
  { intros e He. unfold wanted in He. apply andb_false_iff in He.
    destruct He as [He|He].
    - right. rewrite <- JsSearchFacts.includes_iff, He. discriminate.
    - left. destruct (isDirectory e); [reflexivity | discriminate He]. }
  induction entries as [|e entries IH]; cbn [find].
  - split; [reflexivity | intros e []].
  - destruct (wanted e) eqn:He.
    + exists [], entries. unfold wanted in He. apply andb_true_iff in He.
      destruct He as [Hname Hdir]. repeat split.
      * destruct (isDirectory e); [discriminate Hdir | reflexivity].
      * exact (proj1 (JsSearchFacts.includes_iff _ _) Hname).
      * intros x [].
    + destruct (find wanted entries) as [csvEntry|].
      * destruct IH as [before [after [-> [Hdir [Hname [Hpath Hbefore]]]]]].
        exists (e :: before), after. repeat split; try assumption.
        intros x [<-|Hx]; [apply Hno, He | apply Hbefore, Hx].
      * destruct IH as [Herr Hall]. split; [exact Herr|].
        intros x [<-|Hx]; [apply Hno, He | apply Hall, Hx].
Qed.

(** ** Configuration *)

(** What loading the configuration comes to, variable by variable. *)
Lemma load_EnvConfig_outcome :
  forall env : Env,
    match load_EnvConfig env with
    | inr _ =>
        forall envVar, In envVar requiredEnvVars ->
                       exists value, env envVar = Some value /\ value <> ""
    | inl message =>
        exists before envVar after,
          requiredEnvVars = before ++ envVar :: after
          /\ (env envVar = None \/ env envVar = Some "")
          /\ message = ("Missing required environment variable: " ++ envVar)%string
          /\ forall v, In v before -> exists value, env v = Some value /\ value <> ""
    end.
Proof.
  intros env. unfold load_EnvConfig. cbv zeta.
  assert (Hset : forall v, JsString.falsy (env v) = false ->
                           exists value, env v = Some value /\ value <> "").
  { intros v Hv. destruct (env v) as [[|c s]|]; try discriminate Hv.
    eexists. split; [reflexivity | discriminate]. }
  assert (Hunset : forall v, JsString.falsy (env v) = true ->
                             env v = None \/ env v = Some "").
  { intros v Hv. destruct (env v) as [[|c s]|]; try discriminate Hv;
      [right | left]; reflexivity. }
  induction requiredEnvVars as [|v vars IH]; simpl.
  - intros envVar [].
  - destruct (JsString.falsy (env v)) eqn:Hv.
    + exists [], v, vars. repeat split; [apply Hunset, Hv | intros x []].
    + destruct (find (fun envVar => JsString.falsy (env envVar)) vars) as [missing|].
      * destruct IH as [before [envVar [after [-> [Hmissing [Hmsg Hbefore]]]]]].
        exists (v :: before), envVar, after. repeat split; try assumption.
        intros x [<-|Hx]; [apply Hset, Hv | apply Hbefore, Hx].
      * intros envVar [<-|Hin]; [apply Hset, Hv | apply IH, Hin].
Qed.

(** X18. The configuration loads exactly when each of the seven required
    variables is set to a non-empty string; otherwise loading throws, and
    the message names a required variable that is unset or empty, the
    first one in the order DB_HOST, DB_NAME, DB_USER, DB_PASSWORD,
    KAGGLE_EMAIL, KAGGLE_PASSWORD, HUBSPOT_ACCESS_TOKEN. *)
Theorem configuration_needs_every_required_variable :
  forall env : Env,
    match load_EnvConfig env with
    | inr _ =>
        forall envVar, In envVar requiredEnvVars ->
                       exists value, env envVar = Some value /\ value <> ""
    | inl message =>
        exists before envVar after,
          requiredEnvVars = before ++ envVar :: after
          /\ (env envVar = None \/ env envVar = Some "")
          /\ message = ("Missing required environment variable: " ++ envVar)%string
          /\ forall v, In v before -> exists value, env v = Some value /\ value <> ""
    end.
Proof. exact load_EnvConfig_outcome. Qed.

(** X19. Once the configuration has loaded, the constructor of
    [HubSpotSyncService] cannot throw [MISSING_CONFIG]: it builds a client
    whose Authorization header is ["Bearer "] followed by the non-empty
    value of [HUBSPOT_ACCESS_TOKEN]. *)
Theorem loaded_configuration_has_the_access_token :
  forall (env : Env) (envConfig : EnvConfig),
    load_EnvConfig env = inr envConfig ->
    exists token,
      env "HUBSPOT_ACCESS_TOKEN" = Some token /\ token <> ""
      /\ HubSpotSyncService_new envConfig
         = inr {| baseURL := "https://api.hubapi.com";
                  header_Authorization := ("Bearer " ++ token)%string;
                  header_ContentType := "application/json" |}.
Proof.
  intros env envConfig Hload.
  pose proof (load_EnvConfig_outcome env) as Hall.
  rewrite Hload in Hall.
  destruct (Hall "HUBSPOT_ACCESS_TOKEN") as [token [Htoken Hne]].
  { unfold requiredEnvVars. simpl. tauto. }
  exists token. repeat split; try assumption.
  unfold load_EnvConfig in Hload. cbv zeta in Hload.
  destruct (find _ requiredEnvVars); [discriminate Hload|].
  injection Hload as <-. unfold HubSpotSyncService_new. cbn [hubspot_accessToken].
  rewrite Htoken. destruct token; [contradiction | reflexivity].
Qed.

(** The sample environment. *)
Lemma loaded_configuration_has_the_access_token_example :
  exists token,
    sample_env "HUBSPOT_ACCESS_TOKEN" = Some token /\ token <> ""
    /\ HubSpotSyncService_new sample_envConfig
       = inr {| baseURL := "https://api.hubapi.com";
                header_Authorization := ("Bearer " ++ token)%string;
                header_ContentType := "application/json" |}.
Proof.
  apply (loaded_configuration_has_the_access_token sample_env sample_envConfig).
  reflexivity.
Defined.

(** ** Nothing to do *)

(** X20. With an empty table, or a cap of 0 or less, a run sends no
    request at all and returns 0. *)
Theorem nothing_to_deliver :
  forall (table : Table) (remote : Remote) (maxContactsToSync : Z) (fuel : nat),
    table = [] \/ maxContactsToSync <= 0 ->
    fst (sync table remote maxContactsToSync (S fuel)) = Done 0
    /\ posts (trace (snd (sync table remote maxContactsToSync (S fuel)))) = [].
Proof.
  intros table remote maxContactsToSync fuel H. unfold sync, sync_with.
  cbn [sync_loop].
  destruct (Z.ltb_spec 0 maxContactsToSync) as [Hpos|Hneg].
  - destruct H as [->|Hcap]; [|lia].
    unfold bind at 1, fetch, bind at 1, emit, ret. cbn [fst snd].
    assert (Hpage : forall o, findAll [] o = []).
    { intros o. unfold findAll. destruct (order o) as [[asc]|]; simpl;
        rewrite skipn_nil; apply firstn_nil. }
    rewrite Hpage. split; reflexivity.
  - split; reflexivity.
Qed.

(** An empty table and the default cap. *)
Lemma nothing_to_deliver_example :
  fst (sync [] always_ok 900 10) = Done 0
  /\ posts (trace (snd (sync [] always_ok 900 10))) = [].
Proof.
  apply (nothing_to_deliver [] always_ok 900 9). left. reflexivity.
Defined.

Lemma fold_on_data_all_skipped sink batchSize rows : forall st,
  (forall row, In row rows -> passes_validation row = false) ->
  let st' := fold_left (on_data sink batchSize) rows st in
  batch st' = batch st
  /\ totalInserted st' = totalInserted st
  /\ write_attempts (import_log st') = write_attempts (import_log st).
Proof.
  induction rows as [|row rows IH]; intros st Hrows; [repeat split|].
  cbn [fold_left].
  assert (Hrow : JsString.falsy (Name row) || JsString.falsy (Sex row) = true).
  { specialize (Hrows row (or_introl eq_refl)). unfold passes_validation in Hrows.
    destruct (_ || _); [reflexivity | discriminate Hrows]. }
  destruct (IH (on_data sink batchSize st row)) as [Hb [Ht Hw]].
  { intros r Hr. apply Hrows. right. exact Hr. }
  cbv zeta in *. rewrite Hb, Ht, Hw. unfold on_data. rewrite Hrow.
  cbn [batch totalInserted import_log].
  rewrite write_attempts_app, app_nil_r. repeat split.
Qed.

(** X21. When no row passes validation (an empty file included), the
    store is never written to and the import returns 0. *)
Theorem nothing_to_import :
  forall (sink : Sink) (batchSize : Z) (rows : list CsvRow),
    (forall row, In row rows -> passes_validation row = false) ->
    fst (import sink batchSize rows StreamEnds) = ImportResolved 0
    /\ write_attempts (snd (import sink batchSize rows StreamEnds)) = [].
Proof.
  intros sink batchSize rows Hrows. rewrite import_outcome.
  destruct (fold_on_data_all_skipped sink batchSize rows import_start Hrows)
    as [Hb [Ht Hw]].
  cbv zeta in *. rewrite Hb, Ht. cbn [batch totalInserted import_start].
  change (Z_length (@nil BabyNameAttrs) >? 0) with false. cbv iota.
  cbn [fst snd]. rewrite write_attempts_app, Hw. split; reflexivity.
Qed.

(** A file whose only row has no name. *)
Lemma nothing_to_import_example :
  fst (import rejecting_sink 1000 [ {| Name := None; Sex := Some "M" |} ] StreamEnds)
  = ImportResolved 0
  /\ write_attempts
       (snd (import rejecting_sink 1000 [ {| Name := None; Sex := Some "M" |} ]
                    StreamEnds)) = [].
Proof.
  apply nothing_to_import. intros row [<-|[]]. reflexivity.
Defined.
